(** * trifoia-config: the layered configuration resolver

    A shallow embedding of [src/config.js] (and of the second copy of the
    same module found in [src/unnamed/part_000]) together with the
    properties its specification states about it.

    Modelling decisions, all of them local to this file:

    - JavaScript values are [undefined], [null], booleans, binary64
      numbers, strings, arrays, plain objects, and the built-in objects a
      property read can reach through [Object.prototype].  A plain object
      is the list of its own enumerable properties in [for ... in] order;
      a property read looks at the own properties first and then at the
      members of [Object.prototype].  The built-in objects are those of
      ECMAScript 2024; a built-in function is only ever a value, nothing
      in the module calls one.  Functions written by the user, accessors
      and symbols are outside the model.
    - Strings are byte strings (the UTF-8 form of the text).
    - Numbers are IEEE 754 binary64 values ([spec_float] at precision 53),
      with a single NaN.
    - A configuration object has the two layers the repository documents
      (category, then value); distinct categories are distinct objects.
    - [process.cwd()], [process.env] and [require] are read through an
      explicit [World]; paths are POSIX paths.
    - A thrown exception is an explicit outcome: what [require] throws,
      [new Error(message)], or a [TypeError] of the language.

    The script block of the copy in [src/unnamed/part_000] and the usage
    script [src/test-commonjs.js] are embedded after the module.
    [src/test/test-utils/slow-hooks.js] is not: it wraps the globals of
    the test runner with a helper that is not among the sources. *)

From Stdlib Require Import String Ascii List ZArith Bool Lia.
From Stdlib Require Import SpecFloat DecimalString.
Import ListNotations.
Local Open Scope string_scope.

(** ** JavaScript values and the builtins the module calls *)

Module JS.

Definition number := spec_float.

Definition NaN : number := S754_nan.
Definition binary64 (neg : bool) (m : Z) (e : Z) : number :=
  match m with
  | Zpos p => binary_round 53 1024 neg p e
  | _ => S754_zero neg
  end.
Definition num (z : Z) : number := binary64 (z <? 0)%Z (Z.abs z) 0.

Definition isNaN (n : number) : bool :=
  match n with S754_nan => true | _ => false end.

(** [a === b] and [a !== b] on numbers: IEEE equality, under which NaN
    differs from every number, itself included. *)
Definition number_strict_eq (a b : number) : bool := SFeqb a b.
Definition number_strict_neq (a b : number) : bool := negb (number_strict_eq a b).

(** The built-in objects within reach of a property read on a plain
    object: [Object.prototype], its constructor and its methods, and
    what those in turn inherit from. *)
Inductive builtin : Type :=
| ObjectPrototype                          (* [Object.prototype] *)
| FunctionPrototype                        (* [Function.prototype] *)
| ObjectConstructor                        (* [Object] *)
| FunctionConstructor                      (* [Function] *)
| Method (name : string) (length : nat).   (* a built-in method, [name] and [length] being its own properties *)

Unset Elimination Schemes.
Inductive value : Type :=
| VUndefined
| VNull
| VBool (b : bool)
| VNumber (n : number)
| VString (s : string)
| VArray (items : list value)
| VObject (props : list (string * value))
| VBuiltin (b : builtin).
Set Elimination Schemes.

(** Induction over values that reaches inside arrays and objects. *)
Section ValueInd.
Variable P : value -> Prop.
Hypothesis Hundef : P VUndefined.
Hypothesis Hnull : P VNull.
Hypothesis Hbool : forall b, P (VBool b).
Hypothesis Hnum : forall n, P (VNumber n).
Hypothesis Hstr : forall s, P (VString s).
Hypothesis Harr : forall items, Forall P items -> P (VArray items).
Hypothesis Hobj :
  forall props, Forall (fun kv => P (snd kv)) props -> P (VObject props).
Hypothesis Hbuiltin : forall b, P (VBuiltin b).

Fixpoint value_deep_ind (v : value) : P v :=
  match v with
  | VUndefined => Hundef
  | VNull => Hnull
  | VBool b => Hbool b
  | VNumber n => Hnum n
  | VString s => Hstr s
  | VArray items =>
      Harr items
        ((fix go (l : list value) : Forall P l :=
            match l with
            | [] => Forall_nil _
            | x :: l' => Forall_cons x (value_deep_ind x) (go l')
            end) items)
  | VObject props =>
      Hobj props
        ((fix go (l : list (string * value)) : Forall (fun kv => P (snd kv)) l :=
            match l with
            | [] => Forall_nil _
            | kv :: l' => Forall_cons kv (value_deep_ind (snd kv)) (go l')
            end) props)
  | VBuiltin b => Hbuiltin b
  end.
End ValueInd.

Definition typeof (v : value) : string :=
  match v with
  | VUndefined => "undefined"
  | VNull => "object"
  | VBool _ => "boolean"
  | VNumber _ => "number"
  | VString _ => "string"
  | VArray _ => "object"
  | VObject _ => "object"
  | VBuiltin ObjectPrototype => "object"
  | VBuiltin _ => "function"
  end.

(** ToBoolean: the falsy values are [undefined], [null], [false], zeros,
    NaN and the empty string. *)
Definition ToBoolean (v : value) : bool :=
  match v with
  | VUndefined | VNull => false
  | VBool b => b
  | VNumber (S754_zero _) | VNumber S754_nan => false
  | VNumber _ => true
  | VString s => negb (s =? EmptyString)
  | VArray _ | VObject _ | VBuiltin _ => true
  end.

(** *** Objects and their properties *)

Fixpoint assoc {A : Type} (k : string) (l : list (string * A)) : option A :=
  match l with
  | [] => None
  | (k', v) :: l' => if k' =? k then Some v else assoc k l'
  end.

(** [o[k] = v]: the property is replaced where it stands, or added last
    ([loadConfig] only ever assigns to keys the object has). *)
Fixpoint assign {A : Type} (k : string) (v : A) (l : list (string * A)) : list (string * A) :=
  match l with
  | [] => [(k, v)]
  | (k', v') :: l' => if k' =? k then (k', v) :: l' else (k', v') :: assign k v l'
  end.

Definition method (name : string) (length : nat) : string * value :=
  (name, VBuiltin (Method name length)).

(** The own data properties of the built-in objects.  None of them is
    enumerable: [for ... in] and [Object.keys] find nothing there. *)
Definition object_prototype_members : list (string * value) :=
  [("constructor", VBuiltin ObjectConstructor);
   method "__defineGetter__" 2; method "__defineSetter__" 2;
   method "hasOwnProperty" 1;
   method "__lookupGetter__" 1; method "__lookupSetter__" 1;
   method "isPrototypeOf" 1; method "propertyIsEnumerable" 1;
   method "toString" 0; method "valueOf" 0; method "toLocaleString" 0].

Definition function_prototype_members : list (string * value) :=
  [("length", VNumber (num 0)); ("name", VString EmptyString);
   ("constructor", VBuiltin FunctionConstructor);
   method "apply" 2; method "bind" 1; method "call" 1; method "toString" 0].

Definition object_constructor_members : list (string * value) :=
  [("length", VNumber (num 1)); ("name", VString "Object");
   ("prototype", VBuiltin ObjectPrototype);
   method "assign" 2; method "getOwnPropertyDescriptor" 2;
   method "getOwnPropertyDescriptors" 1; method "getOwnPropertyNames" 1;
   method "getOwnPropertySymbols" 1; method "hasOwn" 2; method "is" 2;
   method "preventExtensions" 1; method "seal" 1; method "create" 2;
   method "defineProperties" 2; method "defineProperty" 3; method "freeze" 1;
   method "getPrototypeOf" 1; method "setPrototypeOf" 2;
   method "isExtensible" 1; method "isFrozen" 1; method "isSealed" 1;
   method "keys" 1; method "entries" 1; method "fromEntries" 1;
   method "values" 1; method "groupBy" 2].

Definition function_constructor_members : list (string * value) :=
  [("length", VNumber (num 1)); ("name", VString "Function");
   ("prototype", VBuiltin FunctionPrototype)].

Definition own_members (b : builtin) : list (string * value) :=
  match b with
  | ObjectPrototype => object_prototype_members
  | FunctionPrototype => function_prototype_members
  | ObjectConstructor => object_constructor_members
  | FunctionConstructor => function_constructor_members
  | Method name length =>
      [("length", VNumber (num (Z.of_nat length))); ("name", VString name)]
  end.

(** What an object whose prototype chain reaches [Object.prototype]
    finds there: a member, or its own prototype [proto] under the name
    [__proto__], an accessor. *)
Definition from_object_prototype (proto : value) (key : string) : value :=
  match assoc key object_prototype_members with
  | Some v => v
  | None => if key =? "__proto__" then proto else VUndefined
  end.

(** [caller] and [arguments] are accessors of [Function.prototype] whose
    getter throws a TypeError. *)
Definition restricted (key : string) : bool := (key =? "caller") || (key =? "arguments").

(** [b[key]] on a built-in object; [None] stands for a TypeError. *)
Definition get_builtin (b : builtin) (key : string) : option value :=
  match assoc key (own_members b) with
  | Some v => Some v
  | None =>
      match b with
      | ObjectPrototype => Some (if key =? "__proto__" then VNull else VUndefined)
      | FunctionPrototype =>
          if restricted key then None
          else Some (from_object_prototype (VBuiltin ObjectPrototype) key)
      | ObjectConstructor | FunctionConstructor | Method _ _ =>
          match assoc key function_prototype_members with
          | Some v => Some v
          | None =>
              if restricted key then None
              else Some (from_object_prototype (VBuiltin FunctionPrototype) key)
          end
      end
  end.

(** [o[key]] on a plain object with the own properties [props]. *)
Definition get_plain (props : list (string * value)) (key : string) : value :=
  match assoc key props with
  | Some v => v
  | None => from_object_prototype (VBuiltin ObjectPrototype) key
  end.

(** *** Reading numeric literals *)

Definition code (c : ascii) : Z := Z.of_N (N_of_ascii c).

(** Value of a digit in a radix up to 16, if it is one. *)
Definition digit_in (radix : Z) (c : ascii) : option Z :=
  let k := code c in
  let d := if ((48 <=? k) && (k <=? 57))%Z then (k - 48)%Z
           else if ((97 <=? k) && (k <=? 102))%Z then (k - 87)%Z
           else if ((65 <=? k) && (k <=? 70))%Z then (k - 55)%Z
           else 16%Z in
  if (d <? radix)%Z then Some d else None.

(** Longest prefix of digits: accumulated value, digit count, the rest. *)
Fixpoint take_digits (radix : Z) (s : string) (acc : Z) (n : nat) : Z * nat * string :=
  match s with
  | String c rest =>
      match digit_in radix c with
      | Some d => take_digits radix rest (acc * radix + d)%Z (S n)
      | None => (acc, n, s)
      end
  | EmptyString => (acc, n, s)
  end.

Record scanned := {
  int_digits : nat;        (* digits before the point *)
  leading_zero : bool;     (* the first digit is 0 *)
  has_point : bool;
  frac_digits : nat;       (* digits after the point *)
  mantissa : Z;            (* all the digits, as one integer *)
  exp10 : Z;               (* so that the literal is mantissa * 10^exp10 *)
  remainder : string
}.

(** digits* ( "." digits* )? ( [eE] [+-]? digits+ )?
    [None] when an exponent mark has no digit after it. *)
Definition scan_decimal (s : string) : option scanned :=
  let lead := match s with String "0" _ => true | _ => false end in
  let '(m1, n1, s1) := take_digits 10 s 0 0 in
  let '(m2, n2, pt, s2) :=
    match s1 with
    | String "." r => let '(m, n, r') := take_digits 10 r m1 0 in (m, n, true, r')
    | _ => (m1, 0%nat, false, s1)
    end in
  let finish e r :=
    Some {| int_digits := n1; leading_zero := lead; has_point := pt;
            frac_digits := n2; mantissa := m2;
            exp10 := (e - Z.of_nat n2)%Z; remainder := r |} in
  let exponent (r : string) :=
    let '(neg, r1) :=
      match r with
      | String "-" r' => (true, r')
      | String "+" r' => (false, r')
      | _ => (false, r)
      end in
    let '(e, n, r2) := take_digits 10 r1 0 0 in
    match n with
    | O => None
    | _ => finish (if neg then (- e)%Z else e) r2
    end in
  match s2 with
  | String "e" r | String "E" r => exponent r
  | _ => finish 0%Z s2
  end.

(** The binary64 number nearest to [mantissa * 10^exp10] (ties to even). *)
Definition number_of_decimal (neg : bool) (m : Z) (e10 : Z) : number :=
  match m with
  | Zpos p =>
      if (0 <=? e10)%Z then binary64 neg (m * 10 ^ e10) 0
      else SFdiv 53 1024 (S754_finite neg p 0)
                         (S754_finite false (Z.to_pos (10 ^ (- e10))) 0)
  | _ => S754_zero neg
  end.

(** *** StringToNumber *)

(** White space and line terminators that [Number] strips from both ends
    of a string, as UTF-8 byte sequences. *)
Definition byte (n : nat) : string := String (ascii_of_nat n) EmptyString.
Definition bytes (l : list nat) : string :=
  fold_right (fun n s => String (ascii_of_nat n) s) EmptyString l.

Definition str_white_space : list string :=
  [ byte 9; byte 10; byte 11; byte 12; byte 13; byte 32;
    bytes [194; 160]; bytes [239; 187; 191]; bytes [225; 154; 128];
    bytes [226; 128; 128]; bytes [226; 128; 129]; bytes [226; 128; 130];
    bytes [226; 128; 131]; bytes [226; 128; 132]; bytes [226; 128; 133];
    bytes [226; 128; 134]; bytes [226; 128; 135]; bytes [226; 128; 136];
    bytes [226; 128; 137]; bytes [226; 128; 138]; bytes [226; 128; 168];
    bytes [226; 128; 169]; bytes [226; 128; 175]; bytes [226; 129; 159];
    bytes [227; 128; 128] ].

Fixpoint strip_prefix (p s : string) : option string :=
  match p, s with
  | EmptyString, _ => Some s
  | String a p', String b s' => if Ascii.eqb a b then strip_prefix p' s' else None
  | String _ _, EmptyString => None
  end.

Fixpoint strip_any (ps : list string) (s : string) : option string :=
  match ps with
  | [] => None
  | p :: ps' =>
      match strip_prefix p s with
      | Some r => Some r
      | None => strip_any ps' s
      end
  end.

Fixpoint trim_start (fuel : nat) (s : string) : string :=
  match fuel with
  | O => s
  | S f =>
      match strip_any str_white_space s with
      | Some r => trim_start f r
      | None => s
      end
  end.

Fixpoint string_rev_onto (s acc : string) : string :=
  match s with
  | EmptyString => acc
  | String c r => string_rev_onto r (String c acc)
  end.
Definition string_rev (s : string) : string := string_rev_onto s EmptyString.

Definition str_white_space_rev : list string := map string_rev str_white_space.

Fixpoint trim_start_rev (fuel : nat) (s : string) : string :=
  match fuel with
  | O => s
  | S f =>
      match strip_any str_white_space_rev s with
      | Some r => trim_start_rev f r
      | None => s
      end
  end.

Definition trim (s : string) : string :=
  let s1 := trim_start (String.length s) s in
  string_rev (trim_start_rev (String.length s1) (string_rev s1)).

Definition radix_literal (radix : Z) (digits : string) : number :=
  match take_digits radix digits 0 0 with
  | (m, S _, EmptyString) => binary64 false m 0
  | _ => NaN
  end.

Definition unsigned_decimal_literal (neg : bool) (s : string) : number :=
  if s =? "Infinity" then S754_infinity neg
  else match scan_decimal s with
       | Some sc =>
           match remainder sc, (int_digits sc + frac_digits sc)%nat with
           | EmptyString, S _ => number_of_decimal neg (mantissa sc) (exp10 sc)
           | _, _ => NaN
           end
       | None => NaN
       end.

Definition StringToNumber (s : string) : number :=
  match trim s with
  | EmptyString => S754_zero false
  | String "+" r => unsigned_decimal_literal false r
  | String "-" r => unsigned_decimal_literal true r
  | String "0" (String "x" r) | String "0" (String "X" r) => radix_literal 16 r
  | String "0" (String "o" r) | String "0" (String "O" r) => radix_literal 8 r
  | String "0" (String "b" r) | String "0" (String "B" r) => radix_literal 2 r
  | t => unsigned_decimal_literal false t
  end.

(** *** Number(v)

    [loadConfig] applies [Number] to a string of the environment or to
    what [JSON.parse] made of it, values in which no member is a function.

    An object is first converted to a primitive.  A plain object with an
    own property [toString] has no usable conversion, [valueOf] returning
    the object itself: a TypeError.  Without one it prints as
    "[object Object]".  An array prints as its elements joined with
    commas, each printed in turn ([null] and [undefined] as the empty
    string), so an element without a conversion makes the array one
    too. *)
Fixpoint unconvertible (v : value) : bool :=
  match v with
  | VObject props =>
      match assoc "toString" props with
      | Some _ => true
      | None => false
      end
  | VArray items => existsb unconvertible items
  | _ => false
  end.

(** The number a value with a conversion gives.  No string with a comma
    is numeric; a single element gives that element's own string, and a
    number prints and reads back as itself except that [-0] prints as
    "0"; a function prints as its source text. *)
Fixpoint ToNumber (v : value) : number :=
  match v with
  | VUndefined => NaN
  | VNull => S754_zero false
  | VBool true => num 1
  | VBool false => S754_zero false
  | VNumber n => n
  | VString s => StringToNumber s
  | VObject _ => NaN
  | VBuiltin _ => NaN
  | VArray [] => S754_zero false
  | VArray [x] =>
      match x with
      | VUndefined | VNull => S754_zero false
      | VBool _ => NaN
      | VNumber (S754_zero _) => S754_zero false
      | VNumber n => n
      | VString s => StringToNumber s
      | VObject _ => NaN
      | VBuiltin _ => NaN
      | VArray _ => ToNumber x
      end
  | VArray (_ :: _ :: _) => NaN
  end.

(** [None] stands for the TypeError. *)
Definition Number (v : value) : option number :=
  if unconvertible v then None else Some (ToNumber v).

(** *** JSON.parse

    [None] stands for the SyntaxError that [JSON.parse] throws.  The
    parser is a recursive descent bounded by the length of the text. *)

Definition is_json_ws (c : ascii) : bool :=
  let k := code c in ((k =? 32) || (k =? 9) || (k =? 10) || (k =? 13))%Z.

Fixpoint skip_ws (s : string) : string :=
  match s with
  | String c r => if is_json_ws c then skip_ws r else s
  | EmptyString => s
  end.

Definition chr (z : Z) : ascii := ascii_of_N (Z.to_N z).

(** UTF-8 form of a code point (a lone surrogate gets the three-byte form). *)
Definition utf8 (cp : Z) : list ascii :=
  if (cp <? 128)%Z then [chr cp]
  else if (cp <? 2048)%Z then
    [chr (192 + cp / 64); chr (128 + cp mod 64)]
  else if (cp <? 65536)%Z then
    [chr (224 + cp / 4096); chr (128 + (cp / 64) mod 64); chr (128 + cp mod 64)]
  else
    [chr (240 + cp / 262144); chr (128 + (cp / 4096) mod 64);
     chr (128 + (cp / 64) mod 64); chr (128 + cp mod 64)].

Definition hex4 (s : string) : option (Z * string) :=
  match s with
  | String a (String b (String c (String d r))) =>
      match digit_in 16 a, digit_in 16 b, digit_in 16 c, digit_in 16 d with
      | Some x, Some y, Some z, Some w => Some (((x * 16 + y) * 16 + z) * 16 + w, r)%Z
      | _, _, _, _ => None
      end
  | _ => None
  end.

Definition push (cs : list ascii) (acc : string) : string :=
  fold_left (fun a c => String c a) cs acc.

(** The characters of a string literal after its opening quote; [acc]
    holds the decoded text so far, reversed. *)
Fixpoint string_body (fuel : nat) (s : string) (acc : string) : option (string * string) :=
  match fuel with
  | O => None
  | S f =>
      match s with
      | EmptyString => None
      | String "034" r => Some (string_rev acc, r)
      | String "092" (String e r) =>
          match e with
          | "034"%char | "092"%char | "/"%char => string_body f r (String e acc)
          | "b"%char => string_body f r (String (chr 8) acc)
          | "f"%char => string_body f r (String (chr 12) acc)
          | "n"%char => string_body f r (String (chr 10) acc)
          | "r"%char => string_body f r (String (chr 13) acc)
          | "t"%char => string_body f r (String (chr 9) acc)
          | "u"%char =>
              match hex4 r with
              | Some (u, r1) =>
                  let single := string_body f r1 (push (utf8 u) acc) in
                  if ((55296 <=? u) && (u <=? 56319))%Z then
                    match r1 with
                    | String "092" (String "u" r2) =>
                        match hex4 r2 with
                        | Some (lo, r3) =>
                            if ((56320 <=? lo) && (lo <=? 57343))%Z then
                              string_body f r3
                                (push (utf8 (65536 + (u - 55296) * 1024 + (lo - 56320))) acc)
                            else single
                        | None => single
                        end
                    | _ => single
                    end
                  else single
              | None => None
              end
          | _ => None
          end
      | String "092" EmptyString => None
      | String c r =>
          if (code c <? 32)%Z then None else string_body f r (String c acc)
      end
  end.

Definition json_string (s : string) : option (string * string) :=
  string_body (S (String.length s)) s EmptyString.

Definition json_number (s : string) : option (value * string) :=
  let '(neg, digits) :=
    match s with
    | String "-" r => (true, r)
    | _ => (false, s)
    end in
  match scan_decimal digits with
  | Some sc =>
      let int_ok :=
        match int_digits sc with
        | O => false
        | S O => true
        | S (S _) => negb (leading_zero sc)
        end in
      let frac_ok := if has_point sc then negb (Nat.eqb (frac_digits sc) 0) else true in
      if int_ok && frac_ok
      then Some (VNumber (number_of_decimal neg (mantissa sc) (exp10 sc)), remainder sc)
      else None
  | None => None
  end.

(** The array index a property key spells, if it spells one: the
    decimal form, without a leading zero, of an integer below 2^32 - 1. *)
Fixpoint decimal_digits (s : string) (acc : Z) : option Z :=
  match s with
  | EmptyString => Some acc
  | String c r =>
      match digit_in 10 c with
      | Some d => decimal_digits r (acc * 10 + d)%Z
      | None => None
      end
  end.

Definition array_index (key : string) : option Z :=
  match key with
  | EmptyString => None
  | String "0" EmptyString => Some 0%Z
  | String "0" _ => None
  | _ =>
      match decimal_digits key 0 with
      | Some n => if (n <? 4294967295)%Z then Some n else None
      | None => None
      end
  end.

(** A property an object does not have yet takes its place in the order
    [for ... in] and [Object.keys] follow: the array indices first, in
    ascending order, then the other keys in the order they were added. *)
Fixpoint place (key : string) (index : option Z) (v : value)
    (props : list (string * value)) : list (string * value) :=
  match props with
  | [] => [(key, v)]
  | (k', v') :: rest =>
      match index with
      | Some i =>
          match array_index k' with
          | Some j => if (j <? i)%Z then (k', v') :: place key index v rest
                      else (key, v) :: props
          | None => (key, v) :: props
          end
      | None => (k', v') :: place key index v rest
      end
  end.

(** [CreateDataProperty(o, key, v)], as [JSON.parse] adds the members of
    an object: a key met again keeps its place and takes the new value. *)
Definition define (key : string) (v : value) (props : list (string * value))
  : list (string * value) :=
  match assoc key props with
  | Some _ => assign key v props
  | None => place key (array_index key) v props
  end.

Fixpoint json_value (fuel : nat) (s : string) : option (value * string) :=
  match fuel with
  | O => None
  | S f =>
      match s with
      | String "n" _ => option_map (pair VNull) (strip_prefix "null" s)
      | String "t" _ => option_map (pair (VBool true)) (strip_prefix "true" s)
      | String "f" _ => option_map (pair (VBool false)) (strip_prefix "false" s)
      | String "034" r =>
          match json_string r with
          | Some (str, r') => Some (VString str, r')
          | None => None
          end
      | String "[" r =>
          match skip_ws r with
          | String "]" r' => Some (VArray [], r')
          | r1 =>
              (fix elements (n : nat) (t : string) (acc : list value) :=
                 match n with
                 | O => None
                 | S n' =>
                     match json_value f t with
                     | Some (v, t1) =>
                         match skip_ws t1 with
                         | String "," t2 => elements n' (skip_ws t2) (v :: acc)
                         | String "]" t2 => Some (VArray (rev (v :: acc)), t2)
                         | _ => None
                         end
                     | None => None
                     end
                 end) (S (String.length r1)) r1 []
          end
      | String "{" r =>
          match skip_ws r with
          | String "}" r' => Some (VObject [], r')
          | r1 =>
              (fix members (n : nat) (t : string) (acc : list (string * value)) :=
                 match n with
                 | O => None
                 | S n' =>
                     match t with
                     | String "034" t0 =>
                         match json_string t0 with
                         | Some (key, t1) =>
                             match skip_ws t1 with
                             | String ":" t2 =>
                                 match json_value f (skip_ws t2) with
                                 | Some (v, t3) =>
                                     match skip_ws t3 with
                                     | String "," t4 =>
                                         members n' (skip_ws t4) (define key v acc)
                                     | String "}" t4 => Some (VObject (define key v acc), t4)
                                     | _ => None
                                     end
                                 | None => None
                                 end
                             | _ => None
                             end
                         | None => None
                         end
                     | _ => None
                     end
                 end) (S (String.length r1)) r1 []
          end
      | _ => json_number s
      end
  end.

Definition JSON_parse (text : string) : option value :=
  match json_value (S (String.length text)) (skip_ws text) with
  | Some (v, r) =>
      match skip_ws r with
      | EmptyString => Some v
      | _ => None
      end
  | None => None
  end.

End JS.

Import JS.

(** ** The configuration module

    [src/config.js] and the copy in [src/unnamed/part_000] define the same
    three functions; the two copies differ in one expression of
    [loadConfig], the test that guards the numeric form of an environment
    value. *)

(** A category is an object of values, a configuration an object of
    categories (the two layers of [.conf.default.js]). *)
Definition Category := list (string * value).
Definition ConfigSchema := list (string * Category).

(** [obj[key]] on a category. *)
Definition get (obj : Category) (key : string) : value := get_plain obj key.

(** What [obj[categoryKey]] finds on a configuration: a category of its
    own, a built-in object inherited from [Object.prototype], or
    nothing, the value being [undefined]. *)
Inductive found :=
| OwnCategory (category : Category)
| Inherited (b : builtin)
| Missing.

Definition getCategory (obj : ConfigSchema) (categoryKey : string) : found :=
  match assoc categoryKey obj with
  | Some category => OwnCategory category
  | None =>
      match from_object_prototype (VBuiltin ObjectPrototype) categoryKey with
      | VBuiltin b => Inherited b
      | _ => Missing
      end
  end.

(** [obj[categoryKey][valueKey]]; [None] stands for a TypeError, that of
    a read on [undefined] or one thrown by an accessor. *)
Definition get2 (obj : ConfigSchema) (categoryKey valueKey : string) : option value :=
  match getCategory obj categoryKey with
  | OwnCategory category => Some (get category valueKey)
  | Inherited b => get_builtin b valueKey
  | Missing => None
  end.

(** The configuration seen as one value, categories nested in it. *)
Definition config_value (c : ConfigSchema) : value :=
  VObject (map (fun entry => (fst entry, VObject (snd entry))) c).

(** [obj[categoryKey] && typeof obj[categoryKey][valueKey] !== 'undefined']:
    whether the result is truthy, or [None] for a TypeError. *)
Definition checkExists (obj : ConfigSchema) (categoryKey valueKey : string) : option bool :=
  match getCategory obj categoryKey with
  | Missing => Some false
  | OwnCategory _ | Inherited _ =>
      match get2 obj categoryKey valueKey with
      | Some v => Some (negb (typeof v =? "undefined"))
      | None => None
      end
  end.

Definition index_key (i : nat) : string := NilEmpty.string_of_uint (Nat.to_uint i).

Definition undefined_message (originalKey : string) : string :=
  "Item with key " ++ originalKey ++ " is undefined".

(** Returns the boolean of the source and the lines written to stderr.
    [for (const key in obj)] visits the properties of an object and the
    indices of an array, and nothing on a number, a boolean, [null] or a
    built-in object. *)
Fixpoint checkForUndefinedRecursive (obj : value) (originalKey : string)
  : bool * list string :=
  match obj with
  | VUndefined => (false, [undefined_message originalKey])
  | VString _ => (true, [])
  | VObject props =>
      (fix each (ps : list (string * value)) : bool * list string :=
         match ps with
         | [] => (true, [])
         | (key, item) :: ps' =>
             let '(ok, log) := checkForUndefinedRecursive item key in
             if ok then let '(ok', log') := each ps' in (ok', (log ++ log')%list)
             else (false, log)
         end) props
  | VArray items =>
      (fix each (i : nat) (xs : list value) : bool * list string :=
         match xs with
         | [] => (true, [])
         | item :: xs' =>
             let '(ok, log) := checkForUndefinedRecursive item (index_key i) in
             if ok then let '(ok', log') := each (S i) xs' in (ok', (log ++ log')%list)
             else (false, log)
         end) 0%nat items
  | VNull | VBool _ | VNumber _ | VBuiltin _ => (true, [])
  end.

(** [ConfigOpts]; an absent [overrides] or [workingDir] is [None]. *)
Record ConfigOpts := {
  overrides : option ConfigSchema;
  workingDir : option string;
  disableEnvarParsing : bool
}.

Definition default_opts : ConfigOpts :=
  {| overrides := None; workingDir := None; disableEnvarParsing := false |}.

(** What the module reads from its process: [process.cwd()],
    [process.env] and the modules [require] finds ([None] when [require]
    throws).  [require] receives the path as [path.join] returns it. *)
Record World := {
  cwd : string;
  env : string -> option string;
  require : string -> option ConfigSchema
}.

(** *** [path.join]

    The POSIX form: the arguments that are not empty are joined with a
    slash and the result is normalized. *)

(** [s.split(sep)] for a separator of one character. *)
Fixpoint split_from (sep : ascii) (s : string) (current : string) : list string :=
  match s with
  | EmptyString => [string_rev current]
  | String c r =>
      if Ascii.eqb c sep then string_rev current :: split_from sep r EmptyString
      else split_from sep r (String c current)
  end.

Definition split (sep : ascii) (s : string) : list string := split_from sep s EmptyString.

(** One segment of a path, [res] being the segments kept so far, the
    last one first: an empty segment and [.] are dropped, [..] removes
    the segment before it, or stays when there is none to remove and the
    path is relative. *)
Definition normalizeSegment (allowAboveRoot : bool) (res : list string)
    (segment : string) : list string :=
  if (segment =? EmptyString) || (segment =? ".") then res
  else if segment =? ".." then
    match res with
    | last :: before =>
        if last =? ".." then (if allowAboveRoot then ".." :: res else res)
        else before
    | [] => if allowAboveRoot then [".."] else []
    end
  else segment :: res.

Definition normalizeString (path : string) (allowAboveRoot : bool) : string :=
  String.concat "/" (rev (fold_left (normalizeSegment allowAboveRoot) (split "/" path) [])).

Fixpoint last_char (s : string) : option ascii :=
  match s with
  | EmptyString => None
  | String c EmptyString => Some c
  | String _ r => last_char r
  end.

Definition is_slash (c : option ascii) : bool :=
  match c with
  | Some c => Ascii.eqb c "/"
  | None => false
  end.

Definition normalize (path : string) : string :=
  match path with
  | EmptyString => "."
  | String first _ =>
      let isAbsolute := Ascii.eqb first "/" in
      let trailingSeparator := is_slash (last_char path) in
      let path := normalizeString path (negb isAbsolute) in
      match path with
      | EmptyString =>
          if isAbsolute then "/" else if trailingSeparator then "./" else "."
      | _ =>
          let path := if trailingSeparator then path ++ "/" else path in
          if isAbsolute then "/" ++ path else path
      end
  end.

(** [path.join(dir, file)] *)
Definition path_join (dir file : string) : string :=
  match dir, file with
  | EmptyString, EmptyString => "."
  | EmptyString, _ => normalize file
  | _, EmptyString => normalize dir
  | _, _ => normalize (dir ++ "/" ++ file)
  end.

Inductive error :=
| RequireError                 (* thrown by [require] *)
| Error (message : string)     (* [new Error(message)] *)
| TypeError.                   (* thrown by the language *)

Inductive outcome :=
| Returned (c : ConfigSchema)
| Threw (e : error).

(** [this] inside the arrow functions of a CommonJS module is the
    module's initial [exports] object, which nothing ever populates. *)
Definition module_this : value := VObject [].

(** [`conf_${categoryKey}_${valueKey}`] *)
Definition varName (categoryKey valueKey : string) : string :=
  "conf_" ++ categoryKey ++ "_" ++ valueKey.

Section LoadConfig.
(** The test of [if (...) category[valueKey] = num]. *)
Variable numeric : number -> bool.
Variable w : World.
Variable opts : ConfigOpts.
Variable secretConfig : ConfigSchema.

(** [process.env[varName]] when it is truthy: a string that is not empty. *)
Definition truthy_env (varName : string) : option string :=
  match env w varName with
  | Some raw => if raw =? EmptyString then None else Some raw
  | None => None
  end.

(** The body of the inner loop, on the category it mutates; [None]
    stands for a TypeError thrown on the way. *)
Definition resolveKey (categoryKey : string) (category : Category)
    (valueKey : string) : option Category :=
  (* what follows the test of the overrides *)
  let otherwise :=
    match truthy_env (varName categoryKey valueKey) with
    | Some raw =>
        let category := assign valueKey (VString raw) category in
        if negb (disableEnvarParsing opts) then
          let category :=
            match JSON_parse raw with
            | Some parsed => assign valueKey parsed category
            | None => category
            end in
          match Number (get category valueKey) with
          | Some num =>
              Some (if numeric num then assign valueKey (VNumber num) category
                    else category)
          | None => None
          end
        else Some category
    | None =>
        match checkExists secretConfig categoryKey valueKey with
        | None => None
        | Some true =>
            match get2 secretConfig categoryKey valueKey with
            | Some v => Some (assign valueKey v category)
            | None => None
            end
        | Some false => Some category
        end
    end in
  match overrides opts with
  | Some o =>
      match checkExists o categoryKey valueKey with
      | None => None
      | Some true =>
          match get2 o categoryKey valueKey with
          | Some v => Some (assign valueKey v category)
          | None => None
          end
      | Some false => otherwise
      end
  | None => otherwise
  end.

(** [for (const valueKey in category)] *)
Definition resolveCategory (categoryKey : string) (category : Category) : option Category :=
  fold_left
    (fun state valueKey =>
       match state with
       | Some category => resolveKey categoryKey category valueKey
       | None => None
       end)
    (map fst category) (Some category).

(** [for (const categoryKey in config)] *)
Definition resolveAll (config : ConfigSchema) : option ConfigSchema :=
  fold_left
    (fun state categoryKey =>
       match state with
       | Some config =>
           match assoc categoryKey config with
           | Some category =>
               match resolveCategory categoryKey category with
               | Some category => Some (assign categoryKey category config)
               | None => None
               end
           | None => Some config
           end
       | None => None
       end)
    (map fst config) (Some config).
End LoadConfig.

Definition loadConfigWith (numeric : number -> bool) (w : World)
    (config : option ConfigSchema) (opts : ConfigOpts) : outcome :=
  let workingDir :=
    match workingDir opts with
    | Some d => d
    | None => cwd w
    end in
  match match config with
        | Some c => Some c
        | None => require w (path_join workingDir ".conf.default.js")
        end with
  | None => Threw RequireError
  | Some config =>
      let secretConfig :=
        match require w (path_join workingDir ".conf.js") with
        | Some s => s
        | None => []
        end in
      match resolveAll numeric w opts secretConfig config with
      | None => Threw TypeError
      | Some config =>
          if match assoc "config" config with
             | Some c => ToBoolean (get c "errorOnUndefined")
             | None => false
             end
             && negb (fst (checkForUndefinedRecursive module_this "this"))
          then Threw (Error "Undefined configurations detected")
          else Returned config
      end
  end.

(** [src/config.js]: [if (num !== NaN) category[valueKey] = num;] *)
Module ConfigJs.
Definition numeric (num : number) : bool := number_strict_neq num NaN.
Definition loadConfig := loadConfigWith numeric.
End ConfigJs.

(** [src/unnamed/part_000]: [if (!isNaN(num)) category[valueKey] = num;] *)
Module Part000.
Definition numeric (num : number) : bool := negb (isNaN num).
Definition loadConfig := loadConfigWith numeric.
End Part000.

(** ** What the properties are stated with *)

(** The names every plain object answers to without having them: the
    members of [Object.prototype]. *)
Definition inherited_names : list string :=
  ["constructor"; "hasOwnProperty"; "isPrototypeOf"; "propertyIsEnumerable";
   "toLocaleString"; "toString"; "valueOf"; "__proto__";
   "__defineGetter__"; "__defineSetter__"; "__lookupGetter__"; "__lookupSetter__"].

(** A name that is none of those. *)
Definition plain_name (name : string) : bool :=
  negb (existsb (String.eqb name) inherited_names).

(** The value a source holds for a category and key, when it holds one:
    the category is there and the key's value is not [undefined]. *)
Definition supplied (src : ConfigSchema) (categoryKey valueKey : string) : option value :=
  match assoc categoryKey src with
  | Some cat =>
      match assoc valueKey cat with
      | Some VUndefined | None => None
      | Some v => Some v
      end
  | None => None
  end.

(** What a source the loop body consults through [checkExists] makes it
    do: throw ([None]), assign a value, or go on to the next source. *)
Definition consult (src : ConfigSchema) (categoryKey valueKey : string)
  : option (option value) :=
  match checkExists src categoryKey valueKey with
  | None => None
  | Some true =>
      match get2 src categoryKey valueKey with
      | Some v => Some (Some v)
      | None => None
      end
  | Some false => Some None
  end.

(** The value the environment branch of the loop body leaves at the key
    after its assignments, as one expression; [None] stands for the
    TypeError of the numeric conversion. *)
Definition coerce (numeric : number -> bool) (opts : ConfigOpts) (raw : string)
  : option value :=
  if disableEnvarParsing opts then Some (VString raw)
  else
    let parsed := match JSON_parse raw with Some j => j | None => VString raw end in
    match Number parsed with
    | Some num => Some (if numeric num then VNumber num else parsed)
    | None => None
    end.

(** What one pass of the loop body does at a key, whatever the value
    there: throw ([None]), leave it ([Some None]) or assign. *)
Definition resolution (numeric : number -> bool) (w : World) (opts : ConfigOpts)
    (secretConfig : ConfigSchema) (categoryKey valueKey : string) : option (option value) :=
  match match overrides opts with
        | Some o => consult o categoryKey valueKey
        | None => Some None
        end with
  | None => None
  | Some (Some v) => Some (Some v)
  | Some None =>
      match truthy_env w (varName categoryKey valueKey) with
      | Some raw => option_map Some (coerce numeric opts raw)
      | None => consult secretConfig categoryKey valueKey
      end
  end.

(** The value the loop body leaves at a key whose value was [default],
    when it does not throw. *)
Definition resolved (numeric : number -> bool) (w : World) (opts : ConfigOpts)
    (secretConfig : ConfigSchema) (categoryKey valueKey : string) (default : value) : value :=
  match resolution numeric w opts secretConfig categoryKey valueKey with
  | Some (Some v) => v
  | _ => default
  end.

(** Whether the loop body throws at a key. *)
Definition throws (numeric : number -> bool) (w : World) (opts : ConfigOpts)
    (secretConfig : ConfigSchema) (categoryKey valueKey : string) : bool :=
  match resolution numeric w opts secretConfig categoryKey valueKey with
  | Some _ => false
  | None => true
  end.

(** The loops without their exceptions. *)
Definition settleKey (numeric : number -> bool) (w : World) (opts : ConfigOpts)
    (secretConfig : ConfigSchema) (categoryKey : string) (category : Category)
    (valueKey : string) : Category :=
  match resolution numeric w opts secretConfig categoryKey valueKey with
  | Some (Some v) => assign valueKey v category
  | _ => category
  end.

Definition settleCategory (numeric : number -> bool) (w : World) (opts : ConfigOpts)
    (secretConfig : ConfigSchema) (categoryKey : string) (category : Category) : Category :=
  fold_left (settleKey numeric w opts secretConfig categoryKey) (map fst category) category.

Definition settleAll (numeric : number -> bool) (w : World) (opts : ConfigOpts)
    (secretConfig : ConfigSchema) (config : ConfigSchema) : ConfigSchema :=
  fold_left
    (fun config categoryKey =>
       match assoc categoryKey config with
       | Some category =>
           assign categoryKey
             (settleCategory numeric w opts secretConfig categoryKey category) config
       | None => config
       end)
    (map fst config) config.

(** The categories of a configuration with the keys of each, in order. *)
Definition shape (c : ConfigSchema) : list (string * list string) :=
  map (fun entry => (fst entry, map fst (snd entry))) c.

(** Whether the loops throw somewhere on a configuration of that shape. *)
Definition throwing (numeric : number -> bool) (w : World) (opts : ConfigOpts)
    (secretConfig : ConfigSchema) (sh : list (string * list string)) : bool :=
  existsb
    (fun categoryKey =>
       match assoc categoryKey sh with
       | Some keys => existsb (throws numeric w opts secretConfig categoryKey) keys
       | None => false
       end)
    (map fst sh).

(** [tracks ... done config0 config] relates the object the
    loop started from to its current state: same shape, every value
    still resolves to what the original resolves to, and the categories
    in [done] hold their resolved values. *)
Definition tracks (numeric : number -> bool) (w : World) (opts : ConfigOpts)
    (secretConfig : ConfigSchema) (done : list string)
    (config0 config : ConfigSchema) : Prop :=
  shape config = shape config0 /\
  forall c cat0 cat k d,
    assoc c config0 = Some cat0 -> assoc c config = Some cat ->
    assoc k cat0 = Some d ->
    exists d', assoc k cat = Some d' /\ resolved numeric w opts secretConfig c k d'
               = resolved numeric w opts secretConfig c k d /\
               (In c done -> d' = resolved numeric w opts secretConfig c k d).

(** Some leaf reachable through own properties is [undefined].  Nothing
    is reachable through a string, a number, a boolean or [null]. *)
Inductive has_undefined_leaf : value -> Prop :=
| undefined_here : has_undefined_leaf VUndefined
| undefined_in_array items x :
    In x items -> has_undefined_leaf x -> has_undefined_leaf (VArray items)
| undefined_in_object props key x :
    In (key, x) props -> has_undefined_leaf x -> has_undefined_leaf (VObject props).

(** The two loops of [checkForUndefinedRecursive], named. *)
Definition check_props : list (string * value) -> bool * list string :=
  fix each (ps : list (string * value)) : bool * list string :=
    match ps with
    | [] => (true, [])
    | (key, item) :: ps' =>
        let '(ok, log) := checkForUndefinedRecursive item key in
        if ok then let '(ok', log') := each ps' in (ok', (log ++ log')%list)
        else (false, log)
    end.

Definition check_items : nat -> list value -> bool * list string :=
  fix each (i : nat) (xs : list value) : bool * list string :=
    match xs with
    | [] => (true, [])
    | item :: xs' =>
        let '(ok, log) := checkForUndefinedRecursive item (index_key i) in
        if ok then let '(ok', log') := each (S i) xs' in (ok', (log ++ log')%list)
        else (false, log)
    end.

(** The boolean the check returns (the key only shows in the log). *)
Definition passes (v : value) : bool := fst (checkForUndefinedRecursive v "this").

(** The directory the files are looked up in, and the secret configuration
    the loop reads: the module exported by [.conf.js] there, or [{}]. *)
Definition working_dir (w : World) (opts : ConfigOpts) : string :=
  match workingDir opts with
  | Some d => d
  | None => cwd w
  end.

Definition default_path (w : World) (opts : ConfigOpts) : string :=
  path_join (working_dir w opts) ".conf.default.js".

Definition secret_path (w : World) (opts : ConfigOpts) : string :=
  path_join (working_dir w opts) ".conf.js".

Definition secret_config (w : World) (opts : ConfigOpts) : ConfigSchema :=
  match require w (secret_path w opts) with
  | Some s => s
  | None => []
  end.

(** The same process with [secret] as the module at the secret path. *)
Definition with_secret (w : World) (opts : ConfigOpts) (secret : ConfigSchema) : World :=
  {| cwd := cwd w;
     env := env w;
     require := fun p => if p =? secret_path w opts then Some secret else require w p |}.

(** A process given by its environment variables and its module files. *)
Definition world_of (vars : list (string * string))
    (files : list (string * ConfigSchema)) : World :=
  {| cwd := "/app"; env := fun name => assoc name vars; require := fun p => assoc p files |}.

Definition sample_schema : ConfigSchema :=
  [("config", [("errorOnUndefined", VBool false)]);
   ("aws", [("region", VString "us-east-1"); ("retries", VUndefined)])].

Definition sample_world : World :=
  world_of [("conf_aws_region", "42")]
           [("/app/.conf.js", [("aws", [("region", VString "secret")])])].

Definition sample_opts : ConfigOpts :=
  {| overrides := Some [("aws", [("region", VString "override")])];
     workingDir := None;
     disableEnvarParsing := false |}.

(** ** The command-line half of [src/unnamed/part_000]

    Run as a script, the module loads the configuration and writes it to
    stdout as shell variable definitions. *)

(** *** Number::toString and JSON.stringify *)

Module Text.

Definition digits_of (z : Z) : string := NilEmpty.string_of_uint (N.to_uint (Z.to_N z)).

Fixpoint zeros (n : nat) : string :=
  match n with
  | O => EmptyString
  | S n' => String "0" (zeros n')
  end.

(** [x = p / q] lies in [10^(n-1), 10^n): [n] is found from an estimate. *)
Fixpoint settle_exponent (fuel : nat) (p q n : Z) : Z :=
  match fuel with
  | O => n
  | S f =>
      let below lo := if (0 <=? lo)%Z then (p <? q * 10 ^ lo)%Z
                      else (p * 10 ^ (- lo) <? q)%Z in
      if below (n - 1)%Z then settle_exponent f p q (n - 1)%Z
      else if below n then n
      else settle_exponent f p q (n + 1)%Z
  end.

Definition decimal_exponent (p q : Z) : Z :=
  settle_exponent 700 p q (((Z.log2 p - Z.log2 q) * 30103) / 100000)%Z.

(** The candidates with [k] digits around [x * 10^(k-n)]; [Some (s, n')]
    is the one that reads back as [x], the nearer one (the even one on a
    tie) when both do. *)
Definition candidate (x : number) (neg : bool) (p q n : Z) (k : Z) : option (Z * Z) :=
  let shift := (k - n)%Z in
  let p' := if (0 <=? shift)%Z then (p * 10 ^ shift)%Z else p in
  let q' := if (0 <=? shift)%Z then q else (q * 10 ^ (- shift))%Z in
  let lo := (p' / q')%Z in
  let r := (p' mod q')%Z in
  let reads s := SFeqb (number_of_decimal neg s (n - k)) x in
  let norm s := if (s =? 10 ^ k)%Z then (10 ^ (k - 1), n + 1)%Z else (s, n) in
  let lo_ok := (10 ^ (k - 1) <=? lo)%Z && reads lo in
  let hi_ok := reads (lo + 1)%Z in
  match lo_ok, hi_ok with
  | true, true =>
      match (2 * r ?= q')%Z with
      | Lt => Some (norm lo)
      | Gt => Some (norm (lo + 1)%Z)
      | Eq => Some (norm (if Z.even lo then lo else (lo + 1)%Z))
      end
  | true, false => Some (norm lo)
  | false, true => Some (norm (lo + 1)%Z)
  | false, false => None
  end.

Fixpoint shortest (fuel : nat) (x : number) (neg : bool) (p q n k : Z) : Z * Z * Z :=
  match fuel with
  | O => (1, k, n)%Z
  | S f =>
      match candidate x neg p q n k with
      | Some (s, n') => (s, k, n')
      | None => shortest f x neg p q n (k + 1)%Z
      end
  end.

Fixpoint strip_zeros (fuel : nat) (s k : Z) : Z * Z :=
  match fuel with
  | O => (s, k)
  | S f => if ((1 <? k) && (s mod 10 =? 0))%Z then strip_zeros f (s / 10) (k - 1)%Z
           else (s, k)
  end.

(** The digits [s] (there are [k] of them) and the exponent [n], laid out
    as Number::toString lays them out. *)
Definition layout (s k n : Z) : string :=
  let ds := digits_of s in
  if ((k <=? n) && (n <=? 21))%Z then ds ++ zeros (Z.to_nat (n - k))
  else if ((0 <? n) && (n <=? 21))%Z then
    substring 0 (Z.to_nat n) ds ++ "." ++ substring (Z.to_nat n) (Z.to_nat (k - n)) ds
  else if ((-6 <? n) && (n <=? 0))%Z then "0." ++ zeros (Z.to_nat (- n)) ++ ds
  else
    let e := (n - 1)%Z in
    let exponent := (if (e <? 0)%Z then "-" else "+") ++ digits_of (Z.abs e) in
    if (k =? 1)%Z then ds ++ "e" ++ exponent
    else substring 0 1 ds ++ "." ++ substring 1 (Z.to_nat (k - 1)) ds ++ "e" ++ exponent.

Definition Number_toString (x : number) : string :=
  match x with
  | S754_nan => "NaN"
  | S754_zero _ => "0"
  | S754_infinity neg => if neg then "-Infinity" else "Infinity"
  | S754_finite neg m e =>
      let p := if (0 <=? e)%Z then (Zpos m * 2 ^ e)%Z else Zpos m in
      let q := if (0 <=? e)%Z then 1%Z else (2 ^ (- e))%Z in
      let n := decimal_exponent p q in
      let '(s, k, n') := shortest 17 (S754_finite false m e) false p q n 1 in
      let '(s', k') := strip_zeros 17 s k in
      (if neg then "-" else "") ++ layout s' k' n'
  end.

Definition hex_digit (d : Z) : ascii :=
  if (d <? 10)%Z then chr (48 + d) else chr (87 + d).

Definition unicode_escape (cp : Z) : string :=
  String "092" (String "u"
    (String (hex_digit (cp / 4096)) (String (hex_digit ((cp / 256) mod 16))
      (String (hex_digit ((cp / 16) mod 16)) (String (hex_digit (cp mod 16)) EmptyString))))).

(** The characters of a string between the quotes JSON.stringify puts
    around it.  A lone surrogate, three bytes in the text, is escaped. *)
Fixpoint quote_body (s : string) : string :=
  match s with
  | EmptyString => EmptyString
  | String c r =>
      let k := code c in
      let lone :=
        match r with
        | String c2 (String c3 r') =>
            if ((k =? 237) && (160 <=? code c2) && (code c2 <=? 191)
                && (128 <=? code c3) && (code c3 <=? 191))%Z
            then Some (((k mod 16) * 64 + code c2 mod 64) * 64 + code c3 mod 64)%Z
            else None
        | _ => None
        end in
      match lone with
      | Some cp =>
          match r with
          | String _ (String _ r') => unicode_escape cp ++ quote_body r'
          | _ => EmptyString
          end
      | None =>
          (if (k =? 8)%Z then String "092" "b"
           else if (k =? 9)%Z then String "092" "t"
           else if (k =? 10)%Z then String "092" "n"
           else if (k =? 12)%Z then String "092" "f"
           else if (k =? 13)%Z then String "092" "r"
           else if (k =? 34)%Z then String "092" (String "034" EmptyString)
           else if (k =? 92)%Z then String "092" (String "092" EmptyString)
           else if (k <? 32)%Z then unicode_escape k
           else String c EmptyString) ++ quote_body r
      end
  end.

Definition quote (s : string) : string :=
  String "034" (quote_body s ++ String "034" EmptyString).

(** The values [JSON.stringify] has no text for: [undefined] and the
    functions. *)
Definition unserializable (v : value) : bool :=
  match v with
  | VUndefined => true
  | VBuiltin ObjectPrototype => false
  | VBuiltin _ => true
  | _ => false
  end.

(** The text of a value.  Inside an array a value without text prints as
    [null]; inside an object a property whose value has none is left
    out.  A built-in object has no enumerable property to print. *)
Fixpoint serialize (v : value) : string :=
  match v with
  | VUndefined => "null"
  | VNull => "null"
  | VBool true => "true"
  | VBool false => "false"
  | VNumber (S754_finite _ _ _ as n) | VNumber (S754_zero _ as n) => Number_toString n
  | VNumber _ => "null"
  | VString s => quote s
  | VArray items =>
      "[" ++ String.concat "," (map serialize items) ++ "]"
  | VObject props =>
      "{" ++ String.concat ","
               ((fix members (ps : list (string * value)) : list string :=
                   match ps with
                   | [] => []
                   | (key, item) :: ps' =>
                       if unserializable item then members ps'
                       else (quote key ++ ":" ++ serialize item) :: members ps'
                   end) props)
          ++ "}"
  | VBuiltin ObjectPrototype => "{}"
  | VBuiltin _ => "null"
  end.

(** [JSON.stringify(v)]; [None] stands for [undefined], returned for a
    value without text. *)
Definition JSON_stringify (v : value) : option string :=
  if unserializable v then None else Some (serialize v).

End Text.

Import Text.

(** *** The script body *)

Definition newline : string := String "010" EmptyString.

(** What ends the script: the text written to stdout, or the exception
    nothing catches. *)
Inductive script_outcome :=
| Wrote (stdout : string)
| Died (e : error).

(** [addVariableDefinition(section, item)], on the [lines] it pushes to;
    [None] stands for the TypeError of [config[section][item]].  A
    value without JSON text is spelled [undefined] by the template. *)
Definition addVariableDefinition (config : ConfigSchema) (lines : list string)
    (section item : string) : option (list string) :=
  match get2 config section item with
  | None => None
  | Some value =>
      let lhs := "config_" ++ section ++ "_" ++ item in
      let rhs :=
        match value with
        | VUndefined => EmptyString
        | _ =>
            match JSON_stringify value with
            | Some text => text
            | None => "undefined"
            end
        end in
      Some (app lines ["export " ++ lhs ++ "=" ++ rhs])
  end.

Definition through {A : Type} (step : list string -> A -> option (list string))
    (items : list A) (lines : list string) : option (list string) :=
  fold_left
    (fun lines x =>
       match lines with
       | Some ls => step ls x
       | None => None
       end)
    items (Some lines).

(** [for (const item of Object.keys(config[section])) addVariableDefinition(section, item)];
    [Object.keys] throws on [undefined] and finds no key on a built-in
    object. *)
Definition addSection (config : ConfigSchema) (lines : list string)
    (section : string) : option (list string) :=
  match getCategory config section with
  | OwnCategory cat =>
      through (fun lines item => addVariableDefinition config lines section item)
        (map fst cat) lines
  | Inherited _ => Some lines
  | Missing => None
  end.

(** The body of the loop over [process.argv.slice(2)]. *)
Definition addPair (config : ConfigSchema) (lines : list string)
    (sectionItemPair : string) : option (list string) :=
  match split "." sectionItemPair with
  | [section] =>
      let sectionValue := getCategory config section in
      if match sectionValue with
         | OwnCategory _ => true
         | Inherited b => typeof (VBuiltin b) =? "object"
         | Missing => false
         end
      then addSection config lines section
      else Some lines
  | [section; item] => addVariableDefinition config lines section item
  | _ => Some lines
  end.

(** The lines pushed before the final empty one. *)
Definition script_lines (config : ConfigSchema) (argv : list string) : option (list string) :=
  if (2 <? length argv)%nat
  then through (addPair config) (skipn 2 argv) []
  else through (addSection config) (map fst config) [].

(** The block under [if (require.main == module)]. *)
Definition main (w : World) (argv : list string) : script_outcome :=
  match Part000.loadConfig w None default_opts with
  | Threw e => Died e
  | Returned config =>
      match script_lines config argv with
      | Some lines => Wrote (String.concat newline (app lines [EmptyString]))
      | None => Died TypeError
      end
  end.

(** *** What the further properties are stated with *)

(** The lines of a configuration in document order: one entry per key. *)
Definition entries (config : ConfigSchema) : list (string * string * value) :=
  flat_map (fun sc => map (fun kv => (fst sc, fst kv, snd kv)) (snd sc)) config.

(** The line [addVariableDefinition] pushes for a value. *)
Definition export_line (section item : string) (v : value) : string :=
  "export " ++ ("config_" ++ section ++ "_" ++ item) ++ "="
  ++ match v with
     | VUndefined => EmptyString
     | _ =>
         match JSON_stringify v with
         | Some text => text
         | None => "undefined"
         end
     end.

Fixpoint has_char (c : ascii) (s : string) : bool :=
  match s with
  | EmptyString => false
  | String c' r => Ascii.eqb c' c || has_char c r
  end.

(** The two loops of [json_value], named. *)
Definition json_elements (f : nat) : nat -> string -> list value -> option (value * string) :=
  fix elements (n : nat) (t : string) (acc : list value) :=
    match n with
    | O => None
    | S n' =>
        match json_value f t with
        | Some (v, t1) =>
            match skip_ws t1 with
            | String "," t2 => elements n' (skip_ws t2) (v :: acc)
            | String "]" t2 => Some (VArray (rev (v :: acc)), t2)
            | _ => None
            end
        | None => None
        end
    end.

Definition json_members (f : nat)
  : nat -> string -> list (string * value) -> option (value * string) :=
  fix members (n : nat) (t : string) (acc : list (string * value)) :=
    match n with
    | O => None
    | S n' =>
        match t with
        | String "034" t0 =>
            match json_string t0 with
            | Some (key, t1) =>
                match skip_ws t1 with
                | String ":" t2 =>
                    match json_value f (skip_ws t2) with
                    | Some (v, t3) =>
                        match skip_ws t3 with
                        | String "," t4 => members n' (skip_ws t4) (define key v acc)
                        | String "}" t4 => Some (VObject (define key v acc), t4)
                        | _ => None
                        end
                    | None => None
                    end
                | _ => None
                end
            | None => None
            end
        | _ => None
        end
    end.

(** A parse result that is not [undefined] itself. *)
Definition top_defined (o : option (value * string)) : Prop :=
  forall v r, o = Some (v, r) -> v <> VUndefined.

(** The lines one section contributes, and the lines one argument of the
    script contributes when it is not fatal. *)
Definition section_lines (section : string) (cat : Category) : list string :=
  map (fun item => export_line section item (get cat item)) (map fst cat).

(** The lines of a section found by name. *)
Definition lines_of_section (config : ConfigSchema) (section : string) : list string :=
  match assoc section config with
  | Some cat => section_lines section cat
  | None => []
  end.

Definition argument_lines (config : ConfigSchema) (arg : string) : list string :=
  match split "." arg with
  | [section] => lines_of_section config section
  | [section; item] =>
      match get2 config section item with
      | Some v => [export_line section item v]
      | None => []
      end
  | _ => []
  end.

(** A line that defines a variable named [config_<section>_<item>], a
    name [loadConfig] reads for no category and key. *)
Definition exports_unread_name (line : string) : Prop :=
  exists section item rhs,
    line = "export " ++ ("config_" ++ section ++ "_" ++ item) ++ "=" ++ rhs /\
    forall categoryKey valueKey,
      "config_" ++ section ++ "_" ++ item <> varName categoryKey valueKey.

(** The process with the environment variables that are set to the
    empty string removed. *)
Definition without_empty (w : World) : World :=
  {| cwd := cwd w;
     env := fun name =>
              match env w name with
              | Some EmptyString => None
              | other => other
              end;
     require := require w |}.

(** An argument at which the script dies: [section.item] where the read
    of [config[section][item]] throws. *)
Definition fatal_argument (config : ConfigSchema) (arg : string) : bool :=
  match split "." arg with
  | [section; item] =>
      match get2 config section item with
      | Some _ => false
      | None => true
      end
  | _ => false
  end.

(** [lines.join('\n')] after the final [lines.push('')]: every line with
    a newline after it. *)
Definition terminated (lines : list string) : string :=
  fold_right (fun line rest => line ++ newline ++ rest) EmptyString lines.

(** The object exported by [src/.conf.default.js]. *)
Definition conf_default : ConfigSchema :=
  [("config", [("errorOnUndefined", VBool false)])].

(** *** [src/test-commonjs.js]

    [require] keeps one object per file, and [loadConfig] changes the
    object it resolves in place: after a call, the file the object came
    from holds the resolved object. *)
Definition remember (w : World) (path : string) (c : ConfigSchema) : World :=
  {| cwd := cwd w;
     env := env w;
     require := fun p => if p =? path then Some c else require w p |}.

(** The four usages of the script, each followed by [console.log(config)]:
    the objects logged, and the exception that stopped the script if one
    did.  [dirname] is the directory of the script, against which its own
    [require('./.conf.default.js')] is resolved; [require('./.conf.default')]
    finds the same file, there being none of that exact name. *)
Definition test_commonjs (dirname : string) (w : World)
  : list ConfigSchema * option error :=
  let here := path_join dirname ".conf.default.js" in
  (* let config = trifoiaConfig(); *)
  match ConfigJs.loadConfig w None default_opts with
  | Threw e => ([], Some e)
  | Returned c1 =>
      let w1 := remember w (default_path w default_opts) c1 in
      (* config = trifoiaConfig(require('./.conf.default.js')); *)
      match require w1 here with
      | None => ([c1], Some RequireError)
      | Some given2 =>
          match ConfigJs.loadConfig w1 (Some given2) default_opts with
          | Threw e => ([c1], Some e)
          | Returned c2 =>
              let w2 := remember w1 here c2 in
              (* config = require('./.conf.default'); trifoiaConfig(config); *)
              match require w2 here with
              | None => ([c1; c2], Some RequireError)
              | Some given3 =>
                  match ConfigJs.loadConfig w2 (Some given3) default_opts with
                  | Threw e => ([c1; c2], Some e)
                  | Returned c3 =>
                      let w3 := remember w2 here c3 in
                      (* config = trifoiaConfig(); *)
                      match ConfigJs.loadConfig w3 None default_opts with
                      | Threw e => ([c1; c2; c3], Some e)
                      | Returned c4 => ([c1; c2; c3; c4], None)
                      end
                  end
              end
          end
      end
  end.

(** A file name: one path segment that is neither [.] nor [..]. *)
Definition file_name (file : string) : bool :=
  negb (has_char "/" file) && negb (file =? EmptyString) && negb (file =? ".")
  && negb (file =? "..").

(** The directory part of the paths [path.join] makes from a directory:
    what comes before the file name. *)
Definition directory_prefix (dir : string) : string :=
  match dir with
  | EmptyString => EmptyString
  | String first _ =>
      let isAbsolute := Ascii.eqb first "/" in
      (if isAbsolute then "/" else EmptyString)
      ++ fold_right (fun x rest => x ++ "/" ++ rest) EmptyString
           (rev (fold_left (normalizeSegment (negb isAbsolute)) (split "/" dir) []))
  end.

(** The JSON text [{"toString":1}]. *)
Definition toString_object_text : string := "{" ++ quote "toString" ++ ":1}".
(** ** Properties *)

(** *** Objects as association lists *)

Section Assoc.
Context {A : Type}.
Implicit Types (k : string) (v : A) (l : list (string * A)).

Lemma assoc_assign_same k v l : assoc k (assign k v l) = Some v.
Proof.
  induction l as [|[k' v'] l IH]; simpl.
  - now rewrite String.eqb_refl.
  - destruct (k' =? k) eqn:E; simpl; rewrite E; auto.
Qed.

Lemma assoc_assign_other k k' v l :
  k <> k' -> assoc k' (assign k v l) = assoc k' l.
Proof.
  intros Hne. induction l as [|[k0 v0] l IH]; simpl.
  - destruct (k =? k') eqn:E; auto. apply String.eqb_eq in E. contradiction.
  - destruct (k0 =? k) eqn:E; simpl.
    + apply String.eqb_eq in E. subst k0.
      destruct (k =? k') eqn:E'; auto.
      apply String.eqb_eq in E'. contradiction.
    + now rewrite IH.
Qed.

Lemma assign_same k v l : assoc k l = Some v -> assign k v l = l.
Proof.
  induction l as [|[k' v'] l IH]; simpl; [discriminate|].
  destruct (k' =? k); intros H.
  - now inversion H.
  - now rewrite IH.
Qed.

Lemma assign_assign k v v' l : assign k v (assign k v' l) = assign k v l.
Proof.
  induction l as [|[k0 v0] l IH]; simpl.
  - now rewrite String.eqb_refl.
  - destruct (k0 =? k) eqn:E; simpl; rewrite E; congruence.
Qed.

Lemma keys_assign k v l :
  assoc k l <> None -> map fst (assign k v l) = map fst l.
Proof.
  induction l as [|[k' v'] l IH]; simpl; [congruence|].
  destruct (k' =? k); simpl; intros H; [reflexivity|].
  now rewrite IH.
Qed.

Lemma assoc_keys k l : In k (map fst l) <-> assoc k l <> None.
Proof.
  induction l as [|[k' v'] l IH]; simpl; [tauto|].
  destruct (k' =? k) eqn:E.
  - apply String.eqb_eq in E. split; [discriminate|auto].
  - apply String.eqb_neq in E. rewrite <- IH. tauto.
Qed.

Lemma assoc_of_key k l : In k (map fst l) -> exists v, assoc k l = Some v.
Proof.
  intros H. apply assoc_keys in H. destruct (assoc k l) as [v|]; [eauto|congruence].
Qed.
End Assoc.

Lemma get_assign k v (cat : Category) : get (assign k v cat) k = v.
Proof. unfold get, get_plain. now rewrite assoc_assign_same. Qed.

(** *** Reads that stay within the own properties *)

Lemma plain_name_not_inherited name proto :
  plain_name name = true -> from_object_prototype proto name = VUndefined.
Proof.
  unfold plain_name, inherited_names. cbn [existsb]. intros H.
  apply negb_true_iff in H.
  repeat (apply orb_false_iff in H; destruct H as [? H]).
  unfold from_object_prototype, object_prototype_members, method. cbn [assoc].
  repeat match goal with
         | E : (name =? ?s) = false |- _ =>
             first [rewrite E | rewrite (String.eqb_sym s name), E]; clear E
         end.
  reflexivity.
Qed.

Lemma getCategory_plain (obj : ConfigSchema) c :
  plain_name c = true ->
  getCategory obj c = match assoc c obj with
                      | Some cat => OwnCategory cat
                      | None => Missing
                      end.
Proof.
  intros H. unfold getCategory. now rewrite (plain_name_not_inherited c _ H).
Qed.

Lemma get_plain_name (cat : Category) k :
  plain_name k = true ->
  get cat k = match assoc k cat with
              | Some v => v
              | None => VUndefined
              end.
Proof.
  intros H. unfold get, get_plain. now rewrite (plain_name_not_inherited k _ H).
Qed.

(** A source read at plain names supplies what it holds itself. *)
Lemma consult_plain src c k :
  plain_name c = true -> plain_name k = true ->
  consult src c k = Some (supplied src c k).
Proof.
  intros Hc Hk. unfold consult, checkExists, get2, supplied.
  rewrite (getCategory_plain src c Hc).
  destruct (assoc c src) as [cat|]; [|reflexivity].
  rewrite (get_plain_name cat k Hk).
  destruct (assoc k cat) as [[]|]; try reflexivity.
  now destruct b.
Qed.

(** An empty source read at a plain category name supplies nothing. *)
Lemma consult_empty c k : plain_name c = true -> consult [] c k = Some None.
Proof.
  intros Hc. unfold consult, checkExists. now rewrite (getCategory_plain [] c Hc).
Qed.

Lemma shape_assign c (cat2 : Category) (config : ConfigSchema) cat :
  assoc c config = Some cat -> map fst cat2 = map fst cat ->
  shape (assign c cat2 config) = shape config.
Proof.
  intros Hc Hk. induction config as [|[c' cat'] config IH]; simpl in *; [discriminate|].
  destruct (c' =? c); simpl.
  - inversion Hc; subst. now rewrite Hk.
  - now rewrite IH.
Qed.

Lemma shape_assoc (config config0 : ConfigSchema) c cat0 :
  shape config = shape config0 -> assoc c config0 = Some cat0 ->
  exists cat, assoc c config = Some cat /\ map fst cat = map fst cat0.
Proof.
  revert config0. induction config as [|[c1 cat1] config IH];
    intros [|[c2 cat2] config0]; simpl; try discriminate.
  intros Hs Hc. inversion Hs; subst.
  destruct (c2 =? c).
  - inversion Hc; subst. eauto.
  - eauto.
Qed.

Lemma assoc_shape (config : ConfigSchema) c :
  assoc c (shape config) = option_map (map fst) (assoc c config).
Proof.
  induction config as [|[c' cat] config IH]; simpl; [reflexivity|].
  now destruct (c' =? c).
Qed.

Lemma shape_keys (config : ConfigSchema) : map fst (shape config) = map fst config.
Proof. unfold shape. rewrite map_map. reflexivity. Qed.

(** *** Loops that may throw *)

Lemma fold_left_thrown {S K : Type} (step : S -> K -> option S) ks :
  fold_left (fun state k => match state with Some s => step s k | None => None end)
    ks None = None.
Proof. induction ks as [|k ks IH]; simpl; [reflexivity|exact IH]. Qed.

(** A loop whose body either throws, at the items [bad] tells, or does
    what [pure] does, on states that keep an invariant. *)
Lemma fold_left_option {S K : Type} (step : S -> K -> option S) (pure : S -> K -> S)
    (bad : K -> bool) (I : S -> Prop) ks :
  (forall s k, I s -> In k ks -> step s k = if bad k then None else Some (pure s k)) ->
  (forall s k, I s -> In k ks -> I (pure s k)) ->
  forall s, I s ->
    fold_left (fun state k => match state with Some s => step s k | None => None end)
      ks (Some s)
    = if existsb bad ks then None else Some (fold_left pure ks s).
Proof.
  induction ks as [|k ks IH]; intros Hstep Hinv s Hs; simpl; [reflexivity|].
  rewrite (Hstep s k Hs) by now left.
  destruct (bad k); simpl; [apply fold_left_thrown|].
  apply IH.
  - intros s' k' Hs' Hk'. apply Hstep; [assumption|now right].
  - intros s' k' Hs' Hk'. apply Hinv; [assumption|now right].
  - apply Hinv; [assumption|now left].
Qed.

Lemma fold_left_fixed {A B : Type} (f : A -> B -> A) (l : list B) (a : A) :
  (forall b, In b l -> f a b = a) -> fold_left f l a = a.
Proof.
  induction l as [|b l IH]; simpl; intros H; [reflexivity|].
  rewrite (H b) by now left. apply IH. intros b' Hb'. apply H. now right.
Qed.

Lemma fold_left_pointwise {A B : Type} (f g : A -> B -> A) (l : list B) :
  (forall a b, f a b = g a b) -> forall a, fold_left f l a = fold_left g l a.
Proof.
  intros H. induction l as [|b l IH]; simpl; intros a; [reflexivity|].
  now rewrite H, IH.
Qed.

(** *** What one pass of the inner loop body computes *)

Section ResolveFacts.
Variable numeric : number -> bool.
Variable w : World.
Variable opts : ConfigOpts.
Variable secretConfig : ConfigSchema.

Local Abbreviation rkey := (resolveKey numeric w opts secretConfig).
Local Abbreviation rcat := (resolveCategory numeric w opts secretConfig).
Local Abbreviation rall := (resolveAll numeric w opts secretConfig).
Local Abbreviation rval := (resolved numeric w opts secretConfig).
Local Abbreviation rdo := (resolution numeric w opts secretConfig).
Local Abbreviation skey := (settleKey numeric w opts secretConfig).
Local Abbreviation scat := (settleCategory numeric w opts secretConfig).
Local Abbreviation sall := (settleAll numeric w opts secretConfig).
Local Abbreviation bad := (throws numeric w opts secretConfig).
Local Abbreviation tracks := (tracks numeric w opts secretConfig).

(** The loop body throws, leaves the category as it is, or assigns one
    value at the key: which of these, and the value, depend on the names
    alone. *)
Lemma resolveKey_resolution c cat k :
  rkey c cat k = match rdo c k with
                 | None => None
                 | Some None => Some cat
                 | Some (Some v) => Some (assign k v cat)
                 end.
Proof.
  unfold resolveKey, resolution, consult.
  assert (Henv : forall raw,
             (let category := assign k (VString raw) cat in
              if negb (disableEnvarParsing opts)
              then
                let category0 :=
                  match JSON_parse raw with
                  | Some parsed => assign k parsed category
                  | None => category
                  end in
                match Number (get category0 k) with
                | Some num =>
                    Some (if numeric num then assign k (VNumber num) category0
                          else category0)
                | None => None
                end
              else Some category)
             = match option_map Some (coerce numeric opts raw) with
               | None => None
               | Some None => Some cat
               | Some (Some v) => Some (assign k v cat)
               end).
  { intros raw. unfold coerce. cbv zeta.
    destruct (disableEnvarParsing opts); simpl; [reflexivity|].
    destruct (JSON_parse raw) as [j|]; rewrite ?assign_assign, get_assign;
      destruct (Number _) as [n|]; simpl; [|reflexivity| |reflexivity];
      destruct (numeric n); now rewrite ?assign_assign. }
  assert (Hsecret :
            match checkExists secretConfig c k with
            | None => None
            | Some true =>
                match get2 secretConfig c k with
                | Some v => Some (assign k v cat)
                | None => None
                end
            | Some false => Some cat
            end
            = match match checkExists secretConfig c k with
                    | None => None
                    | Some true =>
                        match get2 secretConfig c k with
                        | Some v => Some (Some v)
                        | None => None
                        end
                    | Some false => Some None
                    end with
              | None => None
              | Some None => Some cat
              | Some (Some v) => Some (assign k v cat)
              end).
  { destruct (checkExists secretConfig c k) as [[]|]; try reflexivity.
    now destruct (get2 secretConfig c k). }
  destruct (overrides opts) as [o|].
  - destruct (checkExists o c k) as [[]|]; [| |reflexivity].
    + now destruct (get2 o c k).
    + destruct (truthy_env w (varName c k)) as [raw|]; [apply Henv|apply Hsecret].
  - destruct (truthy_env w (varName c k)) as [raw|]; [apply Henv|apply Hsecret].
Qed.

Lemma resolveKey_settle c cat k :
  rkey c cat k = if bad c k then None else Some (skey c cat k).
Proof.
  rewrite resolveKey_resolution. unfold throws, settleKey.
  destruct (rdo c k) as [[v|]|]; reflexivity.
Qed.

Lemma resolveCategory_settle c cat :
  rcat c cat = if existsb (bad c) (map fst cat) then None else Some (scat c cat).
Proof.
  unfold resolveCategory, settleCategory.
  apply (fold_left_option (rkey c) (skey c) (bad c) (fun _ => True)); auto.
  intros s k _ _. apply resolveKey_settle.
Qed.

Lemma settleKey_assign c cat k d :
  assoc k cat = Some d ->
  skey c cat k = assign k (rval c k d) cat.
Proof.
  intros Hd. unfold settleKey, resolved.
  destruct (rdo c k) as [[v|]|]; try reflexivity; symmetry; now apply assign_same.
Qed.

(** A second pass over a key changes nothing. *)
Lemma resolved_idem c k d : rval c k (rval c k d) = rval c k d.
Proof. unfold resolved. destruct (rdo c k) as [[v|]|]; reflexivity. Qed.

(** The inner loop, started on any list of keys the category has. *)
Lemma fold_settleKey c ks : forall cat,
  (forall k, In k ks -> assoc k cat <> None) ->
  map fst (fold_left (skey c) ks cat) = map fst cat /\
  forall k d, assoc k cat = Some d ->
    assoc k (fold_left (skey c) ks cat)
    = Some (if in_dec string_dec k ks then rval c k d else d).
Proof.
  induction ks as [|k0 ks IH]; intros cat Hks; simpl.
  - split; [reflexivity|]. intros k d Hd. exact Hd.
  - assert (H0 : assoc k0 cat <> None) by (apply Hks; now left).
    destruct (assoc k0 cat) as [d0|] eqn:E0; [clear H0|congruence].
    rewrite (settleKey_assign c cat k0 d0 E0).
    set (cat1 := assign k0 (rval c k0 d0) cat).
    assert (Hkeys : map fst cat1 = map fst cat)
      by (apply keys_assign; congruence).
    destruct (IH cat1) as [IHk IHv].
    { intros k Hk. apply assoc_keys. rewrite Hkeys. apply assoc_keys.
      apply Hks. now right. }
    split; [congruence|].
    intros k d Hd.
    destruct (string_dec k0 k) as [->|Hne].
    + assert (H1 : assoc k cat1 = Some (rval c k d0))
        by apply assoc_assign_same.
      rewrite (IHv _ _ H1). replace d0 with d by congruence.
      destruct (in_dec string_dec k ks); [now rewrite resolved_idem|reflexivity].
    + assert (H1 : assoc k cat1 = Some d)
        by (unfold cat1; now rewrite assoc_assign_other).
      rewrite (IHv _ _ H1).
      destruct (in_dec string_dec k ks) as [i|n]; [reflexivity|].
      reflexivity.
Qed.

Lemma settleCategory_keys c cat : map fst (scat c cat) = map fst cat.
Proof.
  apply (fold_settleKey c (map fst cat) cat).
  intros k Hk. now apply assoc_keys.
Qed.

Lemma settleCategory_assoc c cat k d :
  assoc k cat = Some d -> assoc k (scat c cat) = Some (rval c k d).
Proof.
  intros Hd.
  destruct (fold_settleKey c (map fst cat) cat) as [_ Hv].
  { intros k' Hk'. now apply assoc_keys. }
  unfold settleCategory. rewrite (Hv _ _ Hd).
  destruct (in_dec string_dec k (map fst cat)) as [i|n]; [reflexivity|].
  exfalso. apply n. apply assoc_keys. congruence.
Qed.

Lemma tracks_start config0 : tracks [] config0 config0.
Proof.
  split; [reflexivity|].
  intros c cat0 cat k d H0 H1 Hd. exists d.
  replace cat with cat0 by congruence. repeat split; [assumption|].
  intros [].
Qed.

Lemma tracks_step done config0 config c0 cat1 :
  tracks done config0 config ->
  assoc c0 config = Some cat1 ->
  tracks (c0 :: done) config0 (assign c0 (scat c0 cat1) config).
Proof.
  intros [Hshape Hval] H1. split.
  - rewrite <- Hshape. apply (shape_assign _ _ _ cat1); [assumption|].
    apply settleCategory_keys.
  - intros c cat0 cat k d Hc0 Hc Hd.
    destruct (string_dec c0 c) as [->|Hne].
    + rewrite assoc_assign_same in Hc. inversion Hc; subst cat; clear Hc.
      destruct (Hval c cat0 cat1 k d Hc0 H1 Hd) as (d' & Hd' & Hsame & _).
      exists (rval c k d). split; [|split].
      * rewrite (settleCategory_assoc c cat1 k d' Hd'). now f_equal.
      * apply resolved_idem.
      * reflexivity.
    + rewrite assoc_assign_other in Hc by assumption.
      destruct (Hval c cat0 cat k d Hc0 Hc Hd) as (d' & Hd' & Hsame & Hdone).
      exists d'. repeat split; try assumption.
      intros [Heq|Hin]; [contradiction|auto].
Qed.

Lemma fold_categories config0 ks : forall done config,
  tracks done config0 config ->
  (forall c, In c ks -> assoc c config0 <> None) ->
  tracks (rev ks ++ done) config0
    (fold_left
       (fun config categoryKey =>
          match assoc categoryKey config with
          | Some category => assign categoryKey (scat categoryKey category) config
          | None => config
          end) ks config).
Proof.
  induction ks as [|c0 ks IH]; intros done config Ht Hks; simpl; [assumption|].
  assert (H0 : assoc c0 config0 <> None) by (apply Hks; now left).
  destruct (assoc c0 config0) as [cat0|] eqn:E0; [clear H0|congruence].
  destruct (shape_assoc _ _ _ _ (proj1 Ht) E0) as (cat1 & E1 & _).
  rewrite E1. rewrite <- app_assoc. simpl.
  apply IH; [now apply tracks_step|].
  intros c Hc. apply Hks. now right.
Qed.

Lemma settleAll_tracks config :
  tracks (rev (map fst config)) config (sall config).
Proof.
  rewrite <- (app_nil_r (rev (map fst config))).
  apply fold_categories; [apply tracks_start|].
  intros c Hc. now apply assoc_keys.
Qed.

(** The values are replaced where they stand: no category and no key
    is added or removed. *)
Lemma settleAll_shape config : shape (sall config) = shape config.
Proof. exact (proj1 (settleAll_tracks config)). Qed.

(** Every key of every category ends up holding its resolved value. *)
Lemma settleAll_assoc config c cat k d :
  assoc c config = Some cat -> assoc k cat = Some d ->
  exists cat', assoc c (sall config) = Some cat' /\
               assoc k cat' = Some (rval c k d).
Proof.
  intros Hc Hd.
  destruct (settleAll_tracks config) as [Hshape Hval].
  destruct (shape_assoc _ _ _ _ Hshape Hc) as (cat' & Hc' & _).
  exists cat'. split; [assumption|].
  destruct (Hval c cat cat' k d Hc Hc' Hd) as (d' & Hd' & _ & Hdone).
  rewrite Hd'. f_equal. apply Hdone.
  apply -> in_rev. apply assoc_keys. unfold Category in *. congruence.
Qed.

(** The loops throw when the body does at some key of the schema, and
    otherwise return what the loops without exceptions compute. *)
Lemma resolveAll_settle config :
  rall config = if throwing numeric w opts secretConfig (shape config) then None
                else Some (sall config).
Proof.
  unfold resolveAll, settleAll, throwing. rewrite shape_keys.
  apply (fold_left_option
           (fun config categoryKey =>
              match assoc categoryKey config with
              | Some category =>
                  match rcat categoryKey category with
                  | Some category => Some (assign categoryKey category config)
                  | None => None
                  end
              | None => Some config
              end)
           (fun config categoryKey =>
              match assoc categoryKey config with
              | Some category => assign categoryKey (scat categoryKey category) config
              | None => config
              end)
           (fun categoryKey =>
              match assoc categoryKey (shape config) with
              | Some keys => existsb (bad categoryKey) keys
              | None => false
              end)
           (fun config' => shape config' = shape config)).
  - intros s c Hs _. rewrite <- Hs, assoc_shape.
    destruct (assoc c s) as [cat|]; simpl; [|reflexivity].
    rewrite resolveCategory_settle. now destruct (existsb _ _).
  - intros s c Hs _. destruct (assoc c s) as [cat|] eqn:E; [|assumption].
    rewrite <- Hs. apply (shape_assign _ _ _ cat); [assumption|].
    apply settleCategory_keys.
  - reflexivity.
Qed.

(** When the loops return, the body threw at no key of the schema. *)
Lemma throwing_false config c cat k :
  throwing numeric w opts secretConfig (shape config) = false ->
  assoc c config = Some cat -> In k (map fst cat) ->
  bad c k = false.
Proof.
  unfold throwing. intros H Hc Hk.
  destruct (bad c k) eqn:E; [|reflexivity].
  rewrite <- H. symmetry. apply existsb_exists. exists c. split.
  - rewrite shape_keys. apply assoc_keys. unfold Category in *. congruence.
  - rewrite assoc_shape. unfold Category in *. rewrite Hc. simpl.
    apply existsb_exists. eauto.
Qed.

Lemma throwing_true config :
  throwing numeric w opts secretConfig (shape config) = true ->
  exists c cat k, assoc c config = Some cat /\ In k (map fst cat) /\ bad c k = true.
Proof.
  unfold throwing. intros H. apply existsb_exists in H.
  destruct H as (c & _ & H). rewrite assoc_shape in H.
  destruct (assoc c config) as [cat|] eqn:E; simpl in H; [|discriminate].
  apply existsb_exists in H. destruct H as (k & Hk & Hb). eauto 6.
Qed.
End ResolveFacts.

(** *** The recursive check for undefined values *)

Lemma check_object props key :
  checkForUndefinedRecursive (VObject props) key = check_props props.
Proof. reflexivity. Qed.

Lemma check_array items key :
  checkForUndefinedRecursive (VArray items) key = check_items 0 items.
Proof. reflexivity. Qed.

Ltac step_check x key :=
  let ok := fresh "ok" in
  let log := fresh "log" in
  let E := fresh "E" in
  destruct (checkForUndefinedRecursive x key) as [ok log] eqn:E;
  destruct ok; simpl in *.

Lemma check_key_irrelevant v : forall key,
  fst (checkForUndefinedRecursive v key) = passes v.
Proof.
  unfold passes. induction v using value_deep_ind; intros key; try reflexivity.
Qed.

(** A passing check writes nothing; a failing one writes one line. *)
Lemma check_log v : forall key,
  (fst (checkForUndefinedRecursive v key) = true ->
   snd (checkForUndefinedRecursive v key) = []) /\
  (fst (checkForUndefinedRecursive v key) = false ->
   exists k, snd (checkForUndefinedRecursive v key) = [undefined_message k]).
Proof.
  induction v as [| | | | |items IH|props IH|] using value_deep_ind; intros key;
    try (split; [reflexivity|discriminate]).
  - split; [discriminate|]. intros _. now exists key.
  - rewrite check_array. generalize 0%nat.
    induction IH as [|x xs Hx _ IHxs]; intros i; simpl.
    + split; [reflexivity|discriminate].
    + destruct (Hx (index_key i)) as [Ht Hf].
      step_check x (index_key i).
      * destruct (IHxs (S i)) as [Ht' Hf'].
        destruct (check_items (S i) xs) as [ok' log']; simpl in *.
        rewrite (Ht eq_refl). simpl. split; assumption.
      * split; [discriminate|]. intros _. now apply Hf.
  - rewrite check_object.
    induction IH as [|[k x] ps Hx _ IHps]; simpl.
    + split; [reflexivity|discriminate].
    + simpl in Hx. destruct (Hx k) as [Ht Hf].
      step_check x k.
      * destruct IHps as [Ht' Hf'].
        destruct (check_props ps) as [ok' log']; simpl in *.
        rewrite (Ht eq_refl). simpl. split; assumption.
      * split; [discriminate|]. intros _. now apply Hf.
Qed.

Lemma check_items_false i xs :
  Forall (fun x => forall key,
            fst (checkForUndefinedRecursive x key) = false <-> has_undefined_leaf x) xs ->
  fst (check_items i xs) = false <-> exists x, In x xs /\ has_undefined_leaf x.
Proof.
  intros H. revert i. induction H as [|x xs Hx _ IH]; intros i; simpl.
  - split; [discriminate|]. intros (x & [] & _).
  - specialize (Hx (index_key i)). specialize (IH (S i)).
    step_check x (index_key i).
    + destruct (check_items (S i) xs) as [ok' log']; simpl in *.
      rewrite IH. split.
      * intros (y & Hy & Hu). eauto.
      * intros (y & [<-|Hy] & Hu); [|eauto].
        apply Hx in Hu. discriminate.
    + split; [|reflexivity]. intros _. exists x. split; [now left|]. now apply Hx.
Qed.

Lemma check_props_false ps :
  Forall (fun kv => forall key,
            fst (checkForUndefinedRecursive (snd kv) key) = false
            <-> has_undefined_leaf (snd kv)) ps ->
  fst (check_props ps) = false <-> exists k x, In (k, x) ps /\ has_undefined_leaf x.
Proof.
  intros H. induction H as [|[k x] ps Hx _ IH]; simpl.
  - split; [discriminate|]. intros (k & x & [] & _).
  - simpl in Hx. specialize (Hx k).
    step_check x k.
    + destruct (check_props ps) as [ok' log']; simpl in *.
      rewrite IH. split.
      * intros (k' & y & Hy & Hu). eauto.
      * intros (k' & y & [Heq|Hy] & Hu); [|eauto].
        inversion Heq; subst. apply Hx in Hu. discriminate.
    + split; [|reflexivity]. intros _. exists k, x. split; [now left|]. now apply Hx.
Qed.

Lemma check_false_iff v : forall key,
  fst (checkForUndefinedRecursive v key) = false <-> has_undefined_leaf v.
Proof.
  induction v as [| | | | |items IH|props IH|] using value_deep_ind; intros key;
    try (split; [discriminate|intros H; inversion H]).
  - split; [constructor|reflexivity].
  - rewrite check_array, (check_items_false 0 items IH). split.
    + intros (x & Hx & Hu). econstructor; eauto.
    + intros H. inversion H; subst. eauto.
  - rewrite check_object, (check_props_false props IH). split.
    + intros (k & x & Hx & Hu). econstructor; eauto.
    + intros H. inversion H; subst. eauto.
Qed.

(** The loops stop at the first item that fails: what follows it is not
    visited, neither its value nor its log. *)
Lemma check_props_stops before key x after :
  Forall (fun kv => passes (snd kv) = true) before ->
  passes x = false ->
  check_props (before ++ (key, x) :: after) = checkForUndefinedRecursive x key.
Proof.
  intros Hb Hx. induction Hb as [|[k y] ps Hy _ IH]; simpl.
  - rewrite <- (check_key_irrelevant x key) in Hx.
    step_check x key; [discriminate|reflexivity].
  - simpl in Hy. rewrite <- (check_key_irrelevant y k) in Hy.
    pose proof (proj1 (check_log y k)) as Hlog.
    step_check y k; [|discriminate].
    rewrite IH, (Hlog eq_refl). now destruct (checkForUndefinedRecursive x key).
Qed.

Lemma check_items_stops before x after : forall i,
  Forall (fun y => passes y = true) before ->
  passes x = false ->
  check_items i (before ++ x :: after)
  = checkForUndefinedRecursive x (index_key (i + length before)).
Proof.
  intros i Hb Hx. revert i. induction Hb as [|y ys Hy _ IH]; intros i; simpl.
  - rewrite Nat.add_0_r. rewrite <- (check_key_irrelevant x (index_key i)) in Hx.
    step_check x (index_key i); [discriminate|reflexivity].
  - rewrite <- (check_key_irrelevant y (index_key i)) in Hy.
    pose proof (proj1 (check_log y (index_key i))) as Hlog.
    step_check y (index_key i); [|discriminate].
    rewrite IH, (Hlog eq_refl), Nat.add_succ_r. simpl.
    now destruct (checkForUndefinedRecursive x (index_key (S (i + length ys)))).
Qed.

(** *** [loadConfig] as a whole *)

Lemma check_module_this : checkForUndefinedRecursive module_this "this" = (true, []).
Proof. reflexivity. Qed.
(** *** [loadConfig] as a whole *)

(** With a configuration object passed in, the call throws the TypeError
    of the loops or returns that object after them: the check made before
    [throw] is the check of [module_this], which passes. *)
Lemma loadConfigWith_supplied numeric w config opts :
  loadConfigWith numeric w (Some config) opts
  = if throwing numeric w opts (secret_config w opts) (shape config)
    then Threw TypeError
    else Returned (settleAll numeric w opts (secret_config w opts) config).
Proof.
  unfold loadConfigWith.
  change (match require w (path_join match workingDir opts with
                                     | Some d => d
                                     | None => cwd w
                                     end ".conf.js") with
          | Some s => s
          | None => []
          end) with (secret_config w opts).
  rewrite resolveAll_settle.
  destruct (throwing _ _ _ _ _); [reflexivity|].
  rewrite check_module_this. simpl. now rewrite andb_false_r.
Qed.

Lemma loadConfigWith_default numeric w opts d :
  require w (default_path w opts) = Some d ->
  loadConfigWith numeric w None opts = loadConfigWith numeric w (Some d) opts.
Proof.
  intros H. unfold loadConfigWith. unfold default_path, working_dir in H. now rewrite H.
Qed.

Lemma loadConfigWith_missing numeric w opts :
  require w (default_path w opts) = None ->
  loadConfigWith numeric w None opts = Threw RequireError.
Proof.
  intros H. unfold loadConfigWith. unfold default_path, working_dir in H. now rewrite H.
Qed.

Lemma loadConfigWith_returned numeric w config opts r :
  loadConfigWith numeric w (Some config) opts = Returned r ->
  throwing numeric w opts (secret_config w opts) (shape config) = false /\
  r = settleAll numeric w opts (secret_config w opts) config.
Proof.
  rewrite loadConfigWith_supplied.
  destruct (throwing _ _ _ _ _); [discriminate|].
  intros H. inversion H. auto.
Qed.

(** The value [loadConfig] leaves at a key of the schema when it
    returns; the loop body did not throw there. *)
Lemma loadConfigWith_at numeric w opts schema r c cat k d :
  loadConfigWith numeric w (Some schema) opts = Returned r ->
  assoc c schema = Some cat -> assoc k cat = Some d ->
  exists cat' o,
    assoc c r = Some cat' /\
    resolution numeric w opts (secret_config w opts) c k = Some o /\
    assoc k cat' = Some match o with Some v => v | None => d end.
Proof.
  intros Hr Hc Hk. apply loadConfigWith_returned in Hr. destruct Hr as [Hthrow ->].
  destruct (settleAll_assoc numeric w opts (secret_config w opts)
              schema c cat k d Hc Hk) as (cat' & H1 & H2).
  assert (Hb : throws numeric w opts (secret_config w opts) c k = false).
  { apply (throwing_false numeric w opts _ schema c cat k Hthrow Hc).
    apply assoc_keys. congruence. }
  unfold throws in Hb. unfold resolved in H2.
  destruct (resolution numeric w opts (secret_config w opts) c k) as [o|];
    [|discriminate].
  exists cat', o. repeat split; assumption.
Qed.

(** Neither the test of the loop body nor the schema shape decides the
    exceptions: they depend on the names and the sources. *)
Lemma throws_numeric numeric numeric' w opts secretConfig c k :
  throws numeric w opts secretConfig c k = throws numeric' w opts secretConfig c k.
Proof.
  unfold throws, resolution.
  destruct (match overrides opts with Some o => _ | None => Some None end) as [[v|]|];
    try reflexivity.
  destruct (truthy_env w (varName c k)) as [raw|]; [|reflexivity].
  unfold coerce. destruct (disableEnvarParsing opts); [reflexivity|].
  now destruct (Number _).
Qed.

Lemma existsb_pointwise {A : Type} (f g : A -> bool) l :
  (forall a, f a = g a) -> existsb f l = existsb g l.
Proof. intros H. induction l as [|a l IH]; simpl; [reflexivity|]. now rewrite H, IH. Qed.

Lemma throwing_numeric numeric numeric' w opts secretConfig sh :
  throwing numeric w opts secretConfig sh = throwing numeric' w opts secretConfig sh.
Proof.
  unfold throwing. apply existsb_pointwise. intros c.
  destruct (assoc c sh) as [keys|]; [|reflexivity].
  apply existsb_pointwise. intros k. apply throws_numeric.
Qed.

(** The test of [src/config.js] never fails: no number is equal to NaN. *)
Lemma config_js_numeric_always n : ConfigJs.numeric n = true.
Proof. now destruct n. Qed.

Lemma truthy_env_spelled w c k :
  truthy_env w (varName c k)
  = match env w ("conf_" ++ c ++ "_" ++ k) with
    | Some EmptyString | None => None
    | Some raw => Some raw
    end.
Proof.
  unfold truthy_env, varName.
  destruct (env w _) as [[|x raw]|]; reflexivity.
Qed.

Lemma truthy_env_set w c k raw :
  env w ("conf_" ++ c ++ "_" ++ k) = Some raw -> raw <> EmptyString ->
  truthy_env w (varName c k) = Some raw.
Proof.
  intros H Hne. rewrite truthy_env_spelled, H. destruct raw; [contradiction|reflexivity].
Qed.

(** What the loop body does at plain names, source by source. *)
Lemma resolution_plain numeric w opts secretConfig c k :
  plain_name c = true -> plain_name k = true ->
  resolution numeric w opts secretConfig c k
  = match match overrides opts with
          | Some o => supplied o c k
          | None => None
          end with
    | Some v => Some (Some v)
    | None =>
        match truthy_env w (varName c k) with
        | Some raw => option_map Some (coerce numeric opts raw)
        | None => Some (supplied secretConfig c k)
        end
    end.
Proof.
  intros Hc Hk. unfold resolution. rewrite (consult_plain secretConfig c k Hc Hk).
  destruct (overrides opts) as [o|]; [|reflexivity].
  rewrite (consult_plain o c k Hc Hk). now destruct (supplied o c k).
Qed.

(** *** Paths *)

Lemma string_app_assoc (a b c : string) : (a ++ b) ++ c = a ++ b ++ c.
Proof. induction a as [|x a IH]; simpl; [reflexivity|]. now rewrite IH. Qed.

Lemma string_app_inv_head (a b c : string) : a ++ b = a ++ c -> b = c.
Proof. induction a as [|x a IH]; simpl; intros H; [exact H|]. inversion H. auto. Qed.

Lemma split_without sep s : forall current,
  has_char sep s = false ->
  split_from sep s current = [string_rev_onto current s].
Proof.
  induction s as [|c s IH]; intros current H; simpl in *; [reflexivity|].
  apply orb_false_iff in H. destruct H as [Hc Hs]. rewrite Hc.
  now rewrite IH.
Qed.

Lemma split_at sep s rest : forall current,
  has_char sep s = false ->
  split_from sep (s ++ String sep rest) current
  = string_rev_onto current s :: split_from sep rest EmptyString.
Proof.
  induction s as [|c s IH]; intros current H; simpl in *.
  - now rewrite Ascii.eqb_refl.
  - apply orb_false_iff in H. destruct H as [Hc Hs]. rewrite Hc.
    now rewrite IH.
Qed.

Lemma split_name s : has_char "." s = false -> split "." s = [s].
Proof. intros H. unfold split. now rewrite split_without. Qed.

Lemma split_pair s i :
  has_char "." s = false -> has_char "." i = false ->
  split "." (s ++ "." ++ i) = [s; i].
Proof.
  intros Hs Hi. unfold split. simpl.
  rewrite (split_at "." s i EmptyString Hs).
  now rewrite split_without.
Qed.

Lemma split_from_last sep a f : forall current,
  split_from sep (a ++ String sep f) current
  = (split_from sep a current ++ split_from sep f EmptyString)%list.
Proof.
  induction a as [|c a IH]; intros current; simpl.
  - now rewrite Ascii.eqb_refl.
  - destruct (Ascii.eqb c sep); simpl; now rewrite IH.
Qed.

Lemma concat_last sep xs f :
  String.concat sep (xs ++ [f])
  = fold_right (fun x rest => x ++ sep ++ rest) f xs.
Proof.
  induction xs as [|x xs IH]; simpl; [reflexivity|].
  rewrite <- IH. destruct xs; reflexivity.
Qed.

Lemma fold_right_app_string sep xs f :
  fold_right (fun x rest => x ++ sep ++ rest) f xs
  = fold_right (fun x rest => x ++ sep ++ rest) EmptyString xs ++ f.
Proof.
  induction xs as [|x xs IH]; simpl; [reflexivity|].
  now rewrite IH, !string_app_assoc.
Qed.

Lemma last_char_app a f :
  f <> EmptyString -> last_char (a ++ f) = last_char f.
Proof.
  intros Hf. induction a as [|c a IH]; simpl; [reflexivity|].
  rewrite <- IH. destruct (a ++ f) eqn:E; [|reflexivity].
  destruct a; simpl in E; [contradiction|discriminate].
Qed.

Lemma last_char_in f c : last_char f = Some c -> has_char c f = true.
Proof.
  induction f as [|x f IH]; simpl; [discriminate|].
  destruct f as [|y f].
  - intros H. inversion H. now rewrite Ascii.eqb_refl.
  - intros H. rewrite (IH H). apply orb_true_r.
Qed.

Lemma normalize_file file : file_name file = true -> normalize file = file.
Proof.
  unfold file_name. intros H.
  apply andb_true_iff in H. destruct H as [H H3].
  apply andb_true_iff in H. destruct H as [H H2].
  apply andb_true_iff in H. destruct H as [H0 H1].
  apply negb_true_iff in H0, H1, H2, H3.
  destruct file as [|c file]; [discriminate|].
  unfold normalize.
  assert (Hc : Ascii.eqb c "/" = false).
  { simpl in H0. now apply orb_false_iff in H0. }
  rewrite Hc. simpl negb.
  unfold normalizeString, split. rewrite (split_without "/" _ EmptyString H0).
  cbn [string_rev_onto fold_left]. unfold normalizeSegment. rewrite H1, H2, H3.
  cbn [orb rev app String.concat].
  assert (Hl : is_slash (last_char (String c file)) = false).
  { destruct (last_char (String c file)) as [x|] eqn:E; [|reflexivity].
    simpl. destruct (Ascii.eqb x "/") eqn:Ex; [|reflexivity].
    apply Ascii.eqb_eq in Ex. subst x. apply last_char_in in E. congruence. }
  now rewrite Hl.
Qed.

Lemma normalize_cons first rest :
  normalize (String first rest)
  = match normalizeString (String first rest) (negb (Ascii.eqb first "/")) with
    | EmptyString =>
        if Ascii.eqb first "/" then "/"
        else if is_slash (last_char (String first rest)) then "./" else "."
    | String x s =>
        if Ascii.eqb first "/"
        then "/" ++ (if is_slash (last_char (String first rest))
                     then String x s ++ "/" else String x s)
        else if is_slash (last_char (String first rest))
             then String x s ++ "/" else String x s
    end.
Proof.
  unfold normalize. cbv zeta.
  destruct (normalizeString (String first rest) (negb (Ascii.eqb first "/")));
    reflexivity.
Qed.

Lemma path_join_file dir file :
  file_name file = true -> path_join dir file = directory_prefix dir ++ file.
Proof.
  intros Hfile. pose proof Hfile as Hf. unfold file_name in Hf.
  apply andb_true_iff in Hf. destruct Hf as [Hf H3].
  apply andb_true_iff in Hf. destruct Hf as [Hf H2].
  apply andb_true_iff in Hf. destruct Hf as [H0 H1].
  apply negb_true_iff in H0, H1, H2, H3.
  destruct dir as [|first dir].
  - destruct file; [discriminate|]. unfold path_join. now rewrite normalize_file.
  - destruct file as [|c file]; [discriminate|].
    unfold path_join, directory_prefix.
    set (f := String c file) in *.
    change (String first dir ++ "/" ++ f) with (String first (dir ++ String "/" f)).
    rewrite normalize_cons.
    change (String first (dir ++ String "/" f)) with (String first dir ++ String "/" f).
    set (d := String first dir).
    assert (Hl : is_slash (last_char (d ++ String "/" f)) = false).
    { rewrite (last_char_app d (String "/" f)) by discriminate.
      change (String "/" f) with ("/" ++ f). rewrite (last_char_app "/" f) by discriminate.
      destruct (last_char f) as [x|] eqn:E; [|reflexivity].
      simpl. destruct (Ascii.eqb x "/") eqn:Ex; [|reflexivity].
      apply Ascii.eqb_eq in Ex. subst x. apply last_char_in in E. congruence. }
    rewrite Hl. unfold normalizeString, split.
    rewrite split_from_last, (split_without "/" f EmptyString H0).
    cbn [string_rev_onto]. rewrite fold_left_app. cbn [fold_left].
    unfold normalizeSegment at 1. rewrite H1, H2, H3. cbn [orb rev].
    rewrite concat_last, fold_right_app_string.
    set (pre := fold_right _ EmptyString _).
    destruct (pre ++ f) eqn:E.
    + destruct pre; simpl in E; discriminate.
    + destruct (Ascii.eqb first "/"); simpl; rewrite ?E; reflexivity.
Qed.

Lemma secret_path_not_default w opts : (secret_path w opts =? default_path w opts) = false.
Proof.
  apply String.eqb_neq. unfold secret_path, default_path.
  rewrite !path_join_file by reflexivity. intros H.
  apply string_app_inv_head in H. discriminate.
Qed.

(** The value [loadConfig] leaves, when it returns, at a key of the
    schema whose names are plain: the first source that supplies one. *)
Lemma loadConfigWith_plain_at numeric w opts schema r c cat k d :
  loadConfigWith numeric w (Some schema) opts = Returned r ->
  assoc c schema = Some cat -> assoc k cat = Some d ->
  plain_name c = true -> plain_name k = true ->
  exists cat' v,
    assoc c r = Some cat' /\ assoc k cat' = Some v /\
    match match overrides opts with
          | Some o => supplied o c k
          | None => None
          end with
    | Some o => v = o
    | None =>
        match truthy_env w (varName c k) with
        | Some raw => coerce numeric opts raw = Some v
        | None =>
            v = match supplied (secret_config w opts) c k with
                | Some s => s
                | None => d
                end
        end
    end.
Proof.
  intros Hr Hc Hk Hpc Hpk.
  destruct (loadConfigWith_at numeric w opts schema r c cat k d Hr Hc Hk)
    as (cat' & o & H1 & H2 & H3).
  rewrite (resolution_plain numeric w opts _ c k Hpc Hpk) in H2.
  exists cat'. eexists. split; [exact H1|]. split; [exact H3|].
  destruct (match overrides opts with Some o0 => supplied o0 c k | None => None end).
  - now inversion H2.
  - destruct (truthy_env w (varName c k)) as [raw|].
    + destruct (coerce numeric opts raw) as [v|]; simpl in H2; [|discriminate].
      now inversion H2.
    + inversion H2. now destruct (supplied (secret_config w opts) c k).
Qed.

Lemma resolution_without_sources numeric w opts c k :
  overrides opts = None ->
  env w (varName c k) = None ->
  plain_name c = true ->
  resolution numeric w opts [] c k = Some None.
Proof.
  intros Hov Henv Hc. unfold resolution, truthy_env. rewrite Hov, Henv.
  now apply consult_empty.
Qed.

(** When the loop body assigns nothing at the keys of a configuration,
    the loops return it as it is. *)
Lemma settleAll_untouched numeric w opts secretConfig config :
  (forall c cat k, assoc c config = Some cat -> In k (map fst cat) ->
                   resolution numeric w opts secretConfig c k = Some None) ->
  throwing numeric w opts secretConfig (shape config) = false /\
  settleAll numeric w opts secretConfig config = config.
Proof.
  intros H. split.
  - destruct (throwing numeric w opts secretConfig (shape config)) eqn:E; [|reflexivity].
    apply throwing_true in E. destruct E as (c & cat & k & Hc & Hk & Hb).
    unfold throws in Hb. now rewrite (H c cat k Hc Hk) in Hb.
  - unfold settleAll. apply fold_left_fixed.
    intros c Hc. destruct (assoc_of_key _ _ Hc) as [cat Hcat]. rewrite Hcat.
    apply assign_same. rewrite Hcat. f_equal. symmetry.
    unfold settleCategory. apply fold_left_fixed.
    intros k Hk. unfold settleKey. now rewrite (H c cat k Hcat Hk).
Qed.

Lemma settleAll_idempotent numeric w opts secretConfig config :
  settleAll numeric w opts secretConfig
    (settleAll numeric w opts secretConfig config)
  = settleAll numeric w opts secretConfig config.
Proof.
  set (config' := settleAll numeric w opts secretConfig config).
  unfold settleAll at 1. apply fold_left_fixed.
  intros c Hc. destruct (assoc_of_key _ _ Hc) as [cat' Hcat']. rewrite Hcat'.
  apply assign_same. rewrite Hcat'. f_equal. symmetry.
  unfold settleCategory. apply fold_left_fixed.
  intros k Hk. destruct (assoc_of_key _ _ Hk) as [d' Hd'].
  rewrite (settleKey_assign numeric w opts secretConfig c cat' k d' Hd').
  apply assign_same. rewrite Hd'. f_equal.
  assert (Hshape : shape config = shape config')
    by (symmetry; apply settleAll_shape).
  destruct (shape_assoc _ _ _ _ Hshape Hcat') as (cat0 & Hcat0 & Hkeys).
  assert (Hk0 : In k (map fst cat0)) by (rewrite Hkeys; exact Hk).
  destruct (assoc_of_key _ _ Hk0) as [d0 Hd0].
  destruct (settleAll_assoc numeric w opts secretConfig config c cat0 k d0 Hcat0 Hd0)
    as (cat'' & Hcat'' & Hres).
  fold config' in Hcat''. unfold Category in *.
  assert (cat'' = cat') by congruence. subst cat''.
  assert (d' = resolved numeric w opts secretConfig c k d0) by congruence. subst d'.
  now rewrite resolved_idem.
Qed.

(** ** The claims *)




(** The three lower rungs of the ladder, on the same sample: without the
    override the environment string wins and is coerced, without it the
    secret configuration wins, and without that the default stays. *)
Example priority_environment :
  ConfigJs.loadConfig sample_world (Some sample_schema) default_opts
  = Returned [("config", [("errorOnUndefined", VBool false)]);
              ("aws", [("region", VNumber (num 42)); ("retries", VUndefined)])].
Proof. reflexivity. Qed.

Example priority_secret :
  ConfigJs.loadConfig
    (world_of [] [("/app/.conf.js", [("aws", [("region", VString "secret")])])])
    (Some sample_schema) default_opts
  = Returned [("config", [("errorOnUndefined", VBool false)]);
              ("aws", [("region", VString "secret"); ("retries", VUndefined)])].
Proof. reflexivity. Qed.

Example priority_default :
  ConfigJs.loadConfig (world_of [] []) (Some sample_schema) default_opts
  = Returned sample_schema.
Proof. reflexivity. Qed.

(** C2.  The specification asks that a truthy [config.errorOnUndefined]
    make the call fail when the resolved schema holds an undefined leaf.
    Both copies pass [this] to the check, not the resolved object: on a
    schema that enables [errorOnUndefined] and keeps an undefined leaf
    the call returns the schema, although the check of the schema itself
    fails and names the leaf. *)
Theorem errorOnUndefined_checks_this :
  let schema : ConfigSchema :=
    [("config", [("errorOnUndefined", VBool true)]); ("db", [("host", VUndefined)])] in
  let w := world_of [] [] in
  ConfigJs.loadConfig w (Some schema) default_opts = Returned schema /\
  Part000.loadConfig w (Some schema) default_opts = Returned schema /\
  checkForUndefinedRecursive (config_value schema) "this"
  = (false, ["Item with key host is undefined"]).
Proof. repeat split. Qed.

(** C3.  What the two copies make of the environment strings of the
    specification's example.  "42" becomes the number 42 and stays the
    string "42" when parsing is disabled; "true" becomes the number 1 in
    both copies, not the boolean; "not json" becomes NaN in
    [src/config.js] and stays a string in the other copy. *)
Theorem environment_coercion_observed :
  let schema : ConfigSchema := [("app", [("port", VNull)])] in
  let w raw := world_of [("conf_app_port", raw)] [] in
  let raw_opts :=
    {| overrides := None; workingDir := None; disableEnvarParsing := true |} in
  let result v := Returned [("app", [("port", v)])] in
  (ConfigJs.loadConfig (w "42") (Some schema) default_opts = result (VNumber (num 42)) /\
   ConfigJs.loadConfig (w "true") (Some schema) default_opts = result (VNumber (num 1)) /\
   ConfigJs.loadConfig (w "not json") (Some schema) default_opts = result (VNumber NaN) /\
   ConfigJs.loadConfig (w "42") (Some schema) raw_opts = result (VString "42")) /\
  (Part000.loadConfig (w "42") (Some schema) default_opts = result (VNumber (num 42)) /\
   Part000.loadConfig (w "true") (Some schema) default_opts = result (VNumber (num 1)) /\
   Part000.loadConfig (w "not json") (Some schema) default_opts
   = result (VString "not json") /\
   Part000.loadConfig (w "42") (Some schema) raw_opts = result (VString "42")).
Proof. vm_compute. repeat split. Qed.

(** C4.  The two copies of [loadConfig] are not equivalent: on an
    environment string that is no number, [src/config.js] stores NaN
    where the copy in [src/unnamed/part_000] keeps the string. *)
Theorem loadConfig_copies_differ :
  let schema : ConfigSchema := [("app", [("name", VNull)])] in
  let w := world_of [("conf_app_name", "not json")] [] in
  ConfigJs.loadConfig w (Some schema) default_opts
  = Returned [("app", [("name", VNumber NaN)])] /\
  Part000.loadConfig w (Some schema) default_opts
  = Returned [("app", [("name", VString "not json")])] /\
  ConfigJs.loadConfig w (Some schema) default_opts
  <> Part000.loadConfig w (Some schema) default_opts.
Proof.
  vm_compute. repeat split. discriminate.
Qed.

(** C5.  With no overrides, no environment variable set for any key of
    the schema and an empty secret configuration, [loadConfig] returns
    the schema it was given, every value unchanged, provided no category
    of the schema is named like a member of [Object.prototype]. *)
Theorem identity_without_sources (w : World) (opts : ConfigOpts) (schema : ConfigSchema) :
  overrides opts = None ->
  (forall categoryKey cat valueKey,
      assoc categoryKey schema = Some cat -> In valueKey (map fst cat) ->
      env w ("conf_" ++ categoryKey ++ "_" ++ valueKey) = None) ->
  secret_config w opts = [] ->
  (forall categoryKey, In categoryKey (map fst schema) -> plain_name categoryKey = true) ->
  ConfigJs.loadConfig w (Some schema) opts = Returned schema /\
  Part000.loadConfig w (Some schema) opts = Returned schema.
Proof.
  intros Hov Henv Hsec Hplain.
  assert (H : forall numeric, loadConfigWith numeric w (Some schema) opts = Returned schema).
  { intros numeric. rewrite loadConfigWith_supplied, Hsec.
    destruct (settleAll_untouched numeric w opts [] schema) as [Ht Hs].
    { intros c cat k Hc Hk. apply resolution_without_sources.
      - exact Hov.
      - exact (Henv c cat k Hc Hk).
      - apply Hplain. apply assoc_keys. unfold Category in *. congruence. }
    now rewrite Ht, Hs. }
  split; apply H.
Qed.

Lemma identity_without_sources_witness :
  ConfigJs.loadConfig (world_of [("PATH", "/bin")] []) (Some sample_schema) default_opts
  = Returned sample_schema /\
  Part000.loadConfig (world_of [("PATH", "/bin")] []) (Some sample_schema) default_opts
  = Returned sample_schema.
Proof.
  apply identity_without_sources; [reflexivity| |reflexivity|].
  - intros c cat k Hc Hk. reflexivity.
  - intros c [<-|[<-|[]]]; reflexivity.
Defined.

(** Against the identity for every schema: a category named
    [constructor] is read in the empty secret configuration as the
    function [Object], whose [name] replaces the schema's own. *)
Lemma identity_without_sources_counterexample :
  overrides default_opts = None /\
  secret_config (world_of [] []) default_opts = [] /\
  env (world_of [] []) "conf_constructor_name" = None /\
  ConfigJs.loadConfig (world_of [] []) (Some [("constructor", [("name", VString "x")])])
    default_opts
  <> Returned [("constructor", [("name", VString "x")])] /\
  Part000.loadConfig (world_of [] []) (Some [("constructor", [("name", VString "x")])])
    default_opts
  <> Returned [("constructor", [("name", VString "x")])].
Proof. vm_compute. repeat split; discriminate. Qed.

(** C6.  Whatever the overrides, the secret configuration and the
    environment hold, the object [loadConfig] returns has the categories
    of the schema and, in each, the keys of the schema, in the same
    order: nothing is added, nothing is removed. *)
Theorem shape_preserved (w : World) (opts : ConfigOpts) (schema r : ConfigSchema) :
  (ConfigJs.loadConfig w (Some schema) opts = Returned r -> shape r = shape schema) /\
  (Part000.loadConfig w (Some schema) opts = Returned r -> shape r = shape schema).
Proof.
  split; intros H; apply loadConfigWith_returned in H; destruct H as [_ ->];
    apply settleAll_shape.
Qed.

(** Sources that name categories and keys the schema lacks. *)
Lemma shape_preserved_witness :
  shape [("config", [("errorOnUndefined", VBool false)]);
         ("aws", [("region", VString "a"); ("retries", VNumber (num 3))])]
  = shape sample_schema.
Proof.
  apply (proj2 (shape_preserved
                  (world_of [("conf_aws_zone", "b"); ("conf_db_host", "h");
                             ("conf_aws_retries", "3")]
                     [("/app/.conf.js",
                       [("db", [("host", VString "h")]); ("aws", [("zone", VNull)])])])
                  {| overrides := Some [("aws", [("zone", VString "z"); ("region", VString "a")]);
                                        ("db", [("port", VNull)])];
                     workingDir := None;
                     disableEnvarParsing := false |}
                  sample_schema _)).
  reflexivity.
Defined.

Example extra_sources_add_nothing :
  Part000.loadConfig
    (world_of [("conf_aws_zone", "b"); ("conf_db_host", "h")]
              [("/app/.conf.js", [("db", [("host", VString "h")]); ("aws", [("zone", VNull)])])])
    (Some sample_schema)
    {| overrides := Some [("aws", [("zone", VString "a")]); ("db", [("port", VNull)])];
       workingDir := None;
       disableEnvarParsing := false |}
  = Returned sample_schema.
Proof. reflexivity. Qed.

(** C7.  When [require] finds no secret configuration, the call made
    with a schema does what it does in a process whose [.conf.js] exports
    [{}]: the loops run against the empty secret configuration, and what
    [require] threw is not thrown again.  The loops can still throw a
    TypeError of their own. *)
Theorem missing_secret_is_empty (w : World) (opts : ConfigOpts) (schema : ConfigSchema) :
  require w (secret_path w opts) = None ->
  (ConfigJs.loadConfig w (Some schema) opts
   = match resolveAll ConfigJs.numeric w opts [] schema with
     | Some r => Returned r
     | None => Threw TypeError
     end /\
   ConfigJs.loadConfig w (Some schema) opts
   = ConfigJs.loadConfig (with_secret w opts []) (Some schema) opts /\
   ConfigJs.loadConfig w (Some schema) opts <> Threw RequireError) /\
  (Part000.loadConfig w (Some schema) opts
   = match resolveAll Part000.numeric w opts [] schema with
     | Some r => Returned r
     | None => Threw TypeError
     end /\
   Part000.loadConfig w (Some schema) opts
   = Part000.loadConfig (with_secret w opts []) (Some schema) opts /\
   Part000.loadConfig w (Some schema) opts <> Threw RequireError).
Proof.
  intros Hreq.
  assert (H1 : secret_config w opts = []) by (unfold secret_config; now rewrite Hreq).
  assert (H2 : secret_config (with_secret w opts []) opts = []).
  { unfold secret_config, with_secret, secret_path, working_dir. simpl.
    now rewrite String.eqb_refl. }
  assert (H : forall numeric,
             loadConfigWith numeric w (Some schema) opts
             = match resolveAll numeric w opts [] schema with
               | Some r => Returned r
               | None => Threw TypeError
               end /\
             loadConfigWith numeric w (Some schema) opts
             = loadConfigWith numeric (with_secret w opts []) (Some schema) opts /\
             loadConfigWith numeric w (Some schema) opts <> Threw RequireError).
  { intros numeric. rewrite !loadConfigWith_supplied, H1, H2, resolveAll_settle.
    split; [|split].
    - now destruct (throwing numeric w opts [] (shape schema)).
    - reflexivity.
    - destruct (throwing numeric w opts [] (shape schema)); discriminate. }
  split; apply H.
Qed.

Lemma missing_secret_is_empty_witness :
  ConfigJs.loadConfig (world_of [("conf_aws_retries", "3")] []) (Some sample_schema)
    default_opts
  = ConfigJs.loadConfig
      (with_secret (world_of [("conf_aws_retries", "3")] []) default_opts [])
      (Some sample_schema) default_opts.
Proof.
  exact (proj1 (proj2 (proj1 (missing_secret_is_empty
                                (world_of [("conf_aws_retries", "3")] [])
                                default_opts sample_schema eq_refl)))).
Defined.

(** Against "the call does not fail" for every process: with no secret
    configuration to load, an environment string that spells an object
    with a [toString] member makes both copies throw. *)
Lemma missing_secret_is_empty_counterexample :
  require (world_of [("conf_app_port", toString_object_text)] [])
    (secret_path (world_of [("conf_app_port", toString_object_text)] []) default_opts)
  = None /\
  ConfigJs.loadConfig (world_of [("conf_app_port", toString_object_text)] [])
    (Some [("app", [("port", VNull)])]) default_opts
  = Threw TypeError /\
  Part000.loadConfig (world_of [("conf_app_port", toString_object_text)] [])
    (Some [("app", [("port", VNull)])]) default_opts
  = Threw TypeError.
Proof. vm_compute. repeat split. Qed.

(** C8.  Called without a schema, when [require] cannot load
    [.conf.default.js] from the working directory, [loadConfig] throws
    what [require] throws; it returns no value. *)
Theorem missing_default_schema_fails (w : World) (opts : ConfigOpts) :
  require w (default_path w opts) = None ->
  ConfigJs.loadConfig w None opts = Threw RequireError /\
  Part000.loadConfig w None opts = Threw RequireError.
Proof.
  intros Hreq. unfold ConfigJs.loadConfig, Part000.loadConfig, loadConfigWith.
  unfold default_path, working_dir in Hreq. now rewrite Hreq.
Qed.

Lemma missing_default_schema_fails_witness :
  ConfigJs.loadConfig (world_of [] [("/app/.conf.js", sample_schema)]) None default_opts
  = Threw RequireError /\
  Part000.loadConfig (world_of [] [("/app/.conf.js", sample_schema)]) None default_opts
  = Threw RequireError.
Proof.
  apply missing_default_schema_fails. reflexivity.
Defined.

(** C9.  The recursive check returns true on every string without
    looking inside it; on every value it returns false exactly when some
    leaf reachable through own properties is undefined; and in an object
    or an array it stops at the first member that fails, returning what
    the check of that member returns, log included, whatever follows. *)
Theorem undefined_check_characterised :
  (forall s key, checkForUndefinedRecursive (VString s) key = (true, [])) /\
  (forall v key,
      fst (checkForUndefinedRecursive v key) = false <-> has_undefined_leaf v) /\
  (forall before key x after originalKey,
      Forall (fun kv => passes (snd kv) = true) before ->
      passes x = false ->
      checkForUndefinedRecursive (VObject (before ++ (key, x) :: after)) originalKey
      = checkForUndefinedRecursive x key) /\
  (forall before x after originalKey,
      Forall (fun y => passes y = true) before ->
      passes x = false ->
      checkForUndefinedRecursive (VArray (before ++ x :: after)) originalKey
      = checkForUndefinedRecursive x (index_key (length before))).
Proof.
  split; [reflexivity|]. split; [intros v key; apply check_false_iff|]. split.
  - intros before key x after originalKey Hb Hx.
    rewrite check_object. now apply check_props_stops.
  - intros before x after originalKey Hb Hx.
    rewrite check_array. now apply (check_items_stops before x after 0).
Qed.

Lemma undefined_check_characterised_witness :
  checkForUndefinedRecursive
    (VObject ([("a", VNull); ("b", VString EmptyString)]
              ++ ("c", VArray [VNumber (num 1); VUndefined]) :: [("d", VUndefined)]))
    "this"
  = (false, ["Item with key 1 is undefined"]).
Proof.
  rewrite (proj1 (proj2 (proj2 undefined_check_characterised))).
  - reflexivity.
  - repeat constructor.
  - reflexivity.
Defined.

(** C10.  The recursive check takes [null] for defined: it returns true
    on [null], on every object and array whose members are [null], and
    on every value without an undefined leaf; when it returns false an
    undefined leaf is there, and [null] is none. *)
Theorem null_is_defined :
  (forall key, checkForUndefinedRecursive VNull key = (true, [])) /\
  (forall props key,
      Forall (fun kv => snd kv = VNull) props ->
      checkForUndefinedRecursive (VObject props) key = (true, [])) /\
  (forall items key,
      Forall (fun x => x = VNull) items ->
      checkForUndefinedRecursive (VArray items) key = (true, [])) /\
  (forall v key,
      ~ has_undefined_leaf v -> checkForUndefinedRecursive v key = (true, [])) /\
  (forall v key,
      fst (checkForUndefinedRecursive v key) = false -> has_undefined_leaf v) /\
  ~ has_undefined_leaf VNull.
Proof.
  assert (Hpass : forall v key,
             ~ has_undefined_leaf v -> checkForUndefinedRecursive v key = (true, [])).
  { intros v key Hn.
    destruct (checkForUndefinedRecursive v key) as [ok log] eqn:E.
    assert (Hok : ok = true).
    { destruct ok; [reflexivity|]. exfalso. apply Hn.
      apply (check_false_iff v key). now rewrite E. }
    subst ok. f_equal.
    pose proof (proj1 (check_log v key)) as Hlog. rewrite E in Hlog. now apply Hlog. }
  split; [reflexivity|]. split; [|split; [|split; [exact Hpass|split]]].
  - intros props key Hall. apply Hpass. intros H. inversion H; subst.
    rewrite Forall_forall in Hall. specialize (Hall _ H1). simpl in Hall. subst x.
    inversion H2.
  - intros items key Hall. apply Hpass. intros H. inversion H; subst.
    rewrite Forall_forall in Hall. specialize (Hall _ H1). subst x.
    inversion H2.
  - intros v key. apply check_false_iff.
  - intros H. inversion H.
Qed.

Lemma null_is_defined_witness :
  checkForUndefinedRecursive (VObject [("accessKeyId", VNull); ("secretAccessKey", VNull)])
    "this"
  = (true, []).
Proof.
  apply (proj1 (proj2 null_is_defined)). repeat constructor.
Defined.

(** ** Beyond the claims *)

(** *** More about [loadConfig] *)

Lemma loadConfigWith_again numeric w opts schema r :
  loadConfigWith numeric w (Some schema) opts = Returned r ->
  loadConfigWith numeric w (Some r) opts = Returned r.
Proof.
  intros H. apply loadConfigWith_returned in H. destruct H as [Ht ->].
  rewrite loadConfigWith_supplied, settleAll_shape, Ht.
  now rewrite settleAll_idempotent.
Qed.

(** X1.  Resolving again what [loadConfig] returned, in the same process
    and with the same options, returns it unchanged. *)
Theorem loadConfig_idempotent (w : World) (opts : ConfigOpts) (schema r : ConfigSchema) :
  (ConfigJs.loadConfig w (Some schema) opts = Returned r ->
   ConfigJs.loadConfig w (Some r) opts = Returned r) /\
  (Part000.loadConfig w (Some schema) opts = Returned r ->
   Part000.loadConfig w (Some r) opts = Returned r).
Proof. split; apply loadConfigWith_again. Qed.

Lemma loadConfig_idempotent_witness :
  ConfigJs.loadConfig sample_world
    (Some [("config", [("errorOnUndefined", VBool false)]);
           ("aws", [("region", VNumber (num 42)); ("retries", VUndefined)])])
    default_opts
  = Returned [("config", [("errorOnUndefined", VBool false)]);
              ("aws", [("region", VNumber (num 42)); ("retries", VUndefined)])].
Proof.
  apply (proj1 (loadConfig_idempotent sample_world default_opts sample_schema _)).
  reflexivity.
Defined.

(** The loops of two calls whose loop bodies agree. *)
Lemma resolveAll_pointwise numeric numeric' w w' opts opts' s s' :
  (forall c cat k,
      resolveKey numeric w opts s c cat k = resolveKey numeric' w' opts' s' c cat k) ->
  forall config,
    resolveAll numeric w opts s config = resolveAll numeric' w' opts' s' config.
Proof.
  intros H config. unfold resolveAll. apply fold_left_pointwise. intros a ck.
  destruct a as [cfg|]; [|reflexivity].
  destruct (assoc ck cfg) as [cat|]; [|reflexivity].
  replace (resolveCategory numeric w opts s ck cat)
    with (resolveCategory numeric' w' opts' s' ck cat); [reflexivity|].
  unfold resolveCategory. apply fold_left_pointwise. intros a' k.
  destruct a' as [cat'|]; [|reflexivity]. symmetry. apply H.
Qed.

Lemma resolveAll_env_local numeric w w' opts secretConfig config :
  (forall c k, env w' (varName c k) = env w (varName c k)) ->
  resolveAll numeric w' opts secretConfig config
  = resolveAll numeric w opts secretConfig config.
Proof.
  intros Henv. apply resolveAll_pointwise. intros c cat k.
  unfold resolveKey, truthy_env. now rewrite Henv.
Qed.

Lemma environment_read_by_name_only_helper w w' numeric config opts :
  cwd w' = cwd w ->
  (forall p, require w' p = require w p) ->
  (forall c k, env w' (varName c k) = env w (varName c k)) ->
  loadConfigWith numeric w' config opts = loadConfigWith numeric w config opts.
Proof.
  intros Hcwd Hreq Henv. unfold loadConfigWith. rewrite Hcwd, !Hreq.
  destruct (match config with Some c => Some c | None => _ end);
    try reflexivity; now rewrite (resolveAll_env_local _ w w').
Qed.

(** X2.  The process environment reaches [loadConfig] only through the
    variables named [conf_<category>_<key>]: two processes with the same
    working directory and the same files, whose environments agree on
    those names, get the same outcome. *)
Theorem environment_read_by_name_only (w w' : World)
    (config : option ConfigSchema) (opts : ConfigOpts) :
  cwd w' = cwd w ->
  (forall p, require w' p = require w p) ->
  (forall categoryKey valueKey,
      env w' (varName categoryKey valueKey) = env w (varName categoryKey valueKey)) ->
  ConfigJs.loadConfig w' config opts = ConfigJs.loadConfig w config opts /\
  Part000.loadConfig w' config opts = Part000.loadConfig w config opts.
Proof.
  intros Hcwd Hreq Henv.
  split; now apply environment_read_by_name_only_helper.
Qed.

Lemma environment_read_by_name_only_witness :
  ConfigJs.loadConfig
    (world_of [("HOME", "/root"); ("conf_aws_region", "42")] []) (Some sample_schema)
    default_opts
  = ConfigJs.loadConfig (world_of [("conf_aws_region", "42")] []) (Some sample_schema)
      default_opts.
Proof.
  apply (environment_read_by_name_only
           (world_of [("conf_aws_region", "42")] [])
           (world_of [("HOME", "/root"); ("conf_aws_region", "42")] []));
    reflexivity.
Defined.

Lemma loadConfigWith_outcomes numeric w config opts :
  (forall message, loadConfigWith numeric w config opts <> Threw (Error message)) /\
  (loadConfigWith numeric w config opts = Threw RequireError <->
   config = None /\ require w (default_path w opts) = None).
Proof.
  destruct config as [c|].
  - rewrite loadConfigWith_supplied.
    destruct (throwing _ _ _ _ _); split; try (intros m; discriminate);
      (split; [discriminate|intros [H _]; discriminate]).
  - destruct (require w (default_path w opts)) as [d|] eqn:E.
    + rewrite (loadConfigWith_default numeric w opts d E), loadConfigWith_supplied.
      destruct (throwing _ _ _ _ _); split; try (intros m; discriminate);
        (split; [discriminate|intros [_ H]; discriminate]).
    + rewrite (loadConfigWith_missing numeric w opts E).
      split; [intros m; discriminate|]. split; auto.
Qed.

(** X3.  [loadConfig] never throws its own error, 'Undefined
    configurations detected', and it throws what [require] throws in one
    case only: no schema is passed and the default schema cannot be
    loaded. *)
Theorem loadConfig_thrown_errors (w : World) (config : option ConfigSchema)
    (opts : ConfigOpts) :
  ((forall message, ConfigJs.loadConfig w config opts <> Threw (Error message)) /\
   (ConfigJs.loadConfig w config opts = Threw RequireError <->
    config = None /\ require w (default_path w opts) = None)) /\
  ((forall message, Part000.loadConfig w config opts <> Threw (Error message)) /\
   (Part000.loadConfig w config opts = Threw RequireError <->
    config = None /\ require w (default_path w opts) = None)).
Proof. split; apply loadConfigWith_outcomes. Qed.

Lemma loadConfig_thrown_errors_witness :
  Part000.loadConfig (world_of [] []) None sample_opts = Threw RequireError.
Proof.
  apply (proj2 (proj2 (loadConfig_thrown_errors (world_of [] []) None sample_opts))).
  repeat split.
Defined.

(** X4.  With [disableEnvarParsing] set, a key of plain names that no
    override supplies and whose environment variable is a non-empty
    string holds exactly that string in the object returned, whatever it
    spells. *)
Theorem raw_environment_value (w : World) (opts : ConfigOpts) (schema r : ConfigSchema)
    (categoryKey valueKey : string) (cat : Category) (default : value) (raw : string) :
  assoc categoryKey schema = Some cat ->
  assoc valueKey cat = Some default ->
  plain_name categoryKey = true ->
  plain_name valueKey = true ->
  match overrides opts with
  | Some o => supplied o categoryKey valueKey
  | None => None
  end = None ->
  env w ("conf_" ++ categoryKey ++ "_" ++ valueKey) = Some raw ->
  raw <> EmptyString ->
  disableEnvarParsing opts = true ->
  (ConfigJs.loadConfig w (Some schema) opts = Returned r ->
   exists cat', assoc categoryKey r = Some cat' /\ assoc valueKey cat' = Some (VString raw)) /\
  (Part000.loadConfig w (Some schema) opts = Returned r ->
   exists cat', assoc categoryKey r = Some cat' /\ assoc valueKey cat' = Some (VString raw)).
Proof.
  intros Hc Hk Hpc Hpk Hov Henv Hraw Hdis.
  assert (H : forall numeric,
             loadConfigWith numeric w (Some schema) opts = Returned r ->
             exists cat', assoc categoryKey r = Some cat' /\
                          assoc valueKey cat' = Some (VString raw)).
  { intros numeric Hr.
    destruct (loadConfigWith_plain_at numeric w opts schema r _ _ _ _ Hr Hc Hk Hpc Hpk)
      as (cat' & v & H1 & H2 & H3).
    rewrite Hov, (truthy_env_set w _ _ raw Henv Hraw) in H3.
    unfold coerce in H3. rewrite Hdis in H3. inversion H3; subst v. eauto. }
  split; apply H.
Qed.

Lemma raw_environment_value_witness :
  exists cat',
    assoc "aws" [("config", [("errorOnUndefined", VBool false)]);
                 ("aws", [("region", VString "[1, 2]"); ("retries", VUndefined)])]
    = Some cat' /\
    assoc "region" cat' = Some (VString "[1, 2]").
Proof.
  eapply (proj2 (raw_environment_value (world_of [("conf_aws_region", "[1, 2]")] [])
                   {| overrides := None; workingDir := None; disableEnvarParsing := true |}
                   sample_schema _ "aws" "region" _ _ "[1, 2]"
                   eq_refl eq_refl eq_refl eq_refl eq_refl eq_refl _ eq_refl)).
  reflexivity.
  Unshelve. discriminate.
Defined.

(** X5.  In [src/config.js], with parsing on, a key of plain names that
    takes its value from the environment holds a number in the object
    returned: the numeric form replaces whatever string or JSON value was
    read. *)
Theorem config_js_environment_is_number (w : World) (opts : ConfigOpts)
    (schema r : ConfigSchema) (categoryKey valueKey : string) (cat : Category)
    (default : value) (raw : string) :
  assoc categoryKey schema = Some cat ->
  assoc valueKey cat = Some default ->
  plain_name categoryKey = true ->
  plain_name valueKey = true ->
  match overrides opts with
  | Some o => supplied o categoryKey valueKey
  | None => None
  end = None ->
  env w ("conf_" ++ categoryKey ++ "_" ++ valueKey) = Some raw ->
  raw <> EmptyString ->
  disableEnvarParsing opts = false ->
  ConfigJs.loadConfig w (Some schema) opts = Returned r ->
  exists cat' n,
    assoc categoryKey r = Some cat' /\ assoc valueKey cat' = Some (VNumber n).
Proof.
  intros Hc Hk Hpc Hpk Hov Henv Hraw Hdis Hr.
  destruct (loadConfigWith_plain_at ConfigJs.numeric w opts schema r _ _ _ _
              Hr Hc Hk Hpc Hpk) as (cat' & v & H1 & H2 & H3).
  rewrite Hov, (truthy_env_set w _ _ raw Henv Hraw) in H3.
  unfold coerce in H3. rewrite Hdis in H3.
  destruct (Number _) as [n|]; [|discriminate].
  rewrite config_js_numeric_always in H3. inversion H3; subst v. eauto.
Qed.

Lemma config_js_environment_is_number_witness :
  exists cat' n,
    assoc "aws" [("config", [("errorOnUndefined", VBool false)]);
                 ("aws", [("region", VNumber NaN); ("retries", VUndefined)])]
    = Some cat' /\
    assoc "region" cat' = Some (VNumber n).
Proof.
  eapply (config_js_environment_is_number
            (world_of [("conf_aws_region", "eu-west-1")] [])
            default_opts sample_schema _ "aws" "region" _ _ "eu-west-1"
            eq_refl eq_refl eq_refl eq_refl eq_refl eq_refl _ eq_refl).
  reflexivity.
  Unshelve. discriminate.
Defined.

(** X6.  In the objects the two copies return for the same call, every
    key of the schema holds the same value, except where the environment
    supplied a string with no numeric reading: there [src/config.js]
    stores NaN and the other copy keeps a value whose numeric form is
    NaN. *)
Theorem copies_differ_only_by_NaN (w : World) (opts : ConfigOpts)
    (schema r1 r2 : ConfigSchema)
    (categoryKey valueKey : string) (cat : Category) (default : value) :
  assoc categoryKey schema = Some cat ->
  assoc valueKey cat = Some default ->
  ConfigJs.loadConfig w (Some schema) opts = Returned r1 ->
  Part000.loadConfig w (Some schema) opts = Returned r2 ->
  exists cat1 v1 cat2 v2,
    assoc categoryKey r1 = Some cat1 /\ assoc valueKey cat1 = Some v1 /\
    assoc categoryKey r2 = Some cat2 /\ assoc valueKey cat2 = Some v2 /\
    (v1 = v2 \/ (v1 = VNumber NaN /\ Number v2 = Some NaN)).
Proof.
  intros Hc Hk Hr1 Hr2.
  destruct (loadConfigWith_at ConfigJs.numeric w opts schema r1 _ _ _ _ Hr1 Hc Hk)
    as (cat1 & o1 & H1 & H2 & H3).
  destruct (loadConfigWith_at Part000.numeric w opts schema r2 _ _ _ _ Hr2 Hc Hk)
    as (cat2 & o2 & H4 & H5 & H6).
  exists cat1, (match o1 with Some v => v | None => default end),
         cat2, (match o2 with Some v => v | None => default end).
  repeat (split; [assumption|]).
  unfold resolution in H2, H5.
  destruct (match overrides opts with Some o => _ | None => Some None end) as [[v|]|];
    [left; now replace o2 with o1 by congruence| |discriminate].
  destruct (truthy_env w (varName categoryKey valueKey)) as [raw|];
    [|left; now replace o2 with o1 by congruence].
  unfold coerce in H2, H5. destruct (disableEnvarParsing opts).
  - simpl in H2, H5. left. now replace o2 with o1 by congruence.
  - destruct (Number _) as [n|] eqn:En; [|discriminate].
    rewrite config_js_numeric_always in H2. simpl in H2, H5.
    inversion H2; subst o1. inversion H5; subst o2. unfold Part000.numeric.
    destruct n; simpl; try (now left). right. split; [reflexivity|exact En].
Qed.

Lemma copies_differ_only_by_NaN_witness :
  exists cat1 v1 cat2 v2,
    assoc "app" [("app", [("name", VNumber NaN)])] = Some cat1 /\
    assoc "name" cat1 = Some v1 /\
    assoc "app" [("app", [("name", VString "not json")])] = Some cat2 /\
    assoc "name" cat2 = Some v2 /\
    (v1 = v2 \/ (v1 = VNumber NaN /\ Number v2 = Some NaN)).
Proof.
  eapply (copies_differ_only_by_NaN (world_of [("conf_app_name", "not json")] [])
            default_opts [("app", [("name", VNull)])] _ _ "app" "name");
    reflexivity.
Defined.

Lemma copies_agree_without_parsing w config opts :
  disableEnvarParsing opts = true ->
  ConfigJs.loadConfig w config opts = Part000.loadConfig w config opts.
Proof.
  intros Hd. unfold ConfigJs.loadConfig, Part000.loadConfig, loadConfigWith.
  destruct (match config with
            | Some c => Some c
            | None => require w (path_join
                        (match workingDir opts with Some d => d | None => cwd w end)
                        ".conf.default.js")
            end) as [c|]; [|reflexivity].
  set (s := match require w _ with Some s => s | None => [] end).
  rewrite (resolveAll_pointwise ConfigJs.numeric Part000.numeric w w opts opts s s);
    [reflexivity|].
  intros ck cat k. unfold resolveKey. now rewrite Hd.
Qed.

(** X7.  With [disableEnvarParsing] set the two copies of [loadConfig]
    return the same outcome for every schema argument, process and
    overrides. *)
Theorem copies_agree_when_parsing_disabled (w : World) (config : option ConfigSchema)
    (opts : ConfigOpts) :
  disableEnvarParsing opts = true ->
  ConfigJs.loadConfig w config opts = Part000.loadConfig w config opts.
Proof. apply copies_agree_without_parsing. Qed.

Lemma copies_agree_when_parsing_disabled_witness :
  ConfigJs.loadConfig (world_of [("conf_aws_region", "not json")] []) (Some sample_schema)
    {| overrides := None; workingDir := None; disableEnvarParsing := true |}
  = Part000.loadConfig (world_of [("conf_aws_region", "not json")] []) (Some sample_schema)
      {| overrides := None; workingDir := None; disableEnvarParsing := true |}.
Proof.
  apply copies_agree_when_parsing_disabled. reflexivity.
Defined.

Lemma varName_collision a b c : varName (a ++ "_" ++ b) c = varName a (b ++ "_" ++ c).
Proof. unfold varName. now rewrite !string_app_assoc. Qed.

(** X8.  The variable name does not tell the category from the key: the
    key [c] of category [a_b] and the key [b_c] of category [a] read the
    same variable [conf_a_b_c], so when both are in the schema and there
    are no overrides, a value set in that variable lands in both keys of
    the object returned. *)
Theorem environment_name_collision (w : World) (opts : ConfigOpts)
    (schema r : ConfigSchema)
    (a b c raw : string) (cat1 cat2 : Category) (d1 d2 : value) :
  assoc (a ++ "_" ++ b) schema = Some cat1 -> assoc c cat1 = Some d1 ->
  assoc a schema = Some cat2 -> assoc (b ++ "_" ++ c) cat2 = Some d2 ->
  overrides opts = None ->
  env w ("conf_" ++ a ++ "_" ++ b ++ "_" ++ c) = Some raw ->
  raw <> EmptyString ->
  (ConfigJs.loadConfig w (Some schema) opts = Returned r ->
   exists cat1' cat2' v,
     assoc (a ++ "_" ++ b) r = Some cat1' /\ assoc c cat1' = Some v /\
     assoc a r = Some cat2' /\ assoc (b ++ "_" ++ c) cat2' = Some v) /\
  (Part000.loadConfig w (Some schema) opts = Returned r ->
   exists cat1' cat2' v,
     assoc (a ++ "_" ++ b) r = Some cat1' /\ assoc c cat1' = Some v /\
     assoc a r = Some cat2' /\ assoc (b ++ "_" ++ c) cat2' = Some v).
Proof.
  intros H1 H2 H3 H4 Hov Henv Hraw.
  assert (H : forall numeric,
             loadConfigWith numeric w (Some schema) opts = Returned r ->
             exists cat1' cat2' v,
               assoc (a ++ "_" ++ b) r = Some cat1' /\ assoc c cat1' = Some v /\
               assoc a r = Some cat2' /\ assoc (b ++ "_" ++ c) cat2' = Some v).
  { intros numeric Hr.
    destruct (loadConfigWith_at numeric w opts schema r _ _ _ _ Hr H1 H2)
      as (cat1' & o1 & Hc1 & Ho1 & Hv1).
    destruct (loadConfigWith_at numeric w opts schema r _ _ _ _ Hr H3 H4)
      as (cat2' & o2 & Hc2 & Ho2 & Hv2).
    assert (Ht : truthy_env w (varName a (b ++ "_" ++ c)) = Some raw)
      by (now apply truthy_env_set).
    unfold resolution in Ho1, Ho2.
    rewrite Hov in Ho1, Ho2. rewrite varName_collision in Ho1.
    rewrite Ht in Ho1, Ho2.
    destruct (coerce numeric opts raw) as [v|]; [|discriminate].
    inversion Ho1; subst o1. inversion Ho2; subst o2.
    exists cat1', cat2', v. repeat split; assumption. }
  split; apply H.
Qed.

Lemma environment_name_collision_witness :
  exists cat1' cat2' v,
    assoc "aws_s3" [("aws_s3", [("bucket", VString "logs")]);
                    ("aws", [("s3_bucket", VString "logs")])] = Some cat1' /\
    assoc "bucket" cat1' = Some v /\
    assoc "aws" [("aws_s3", [("bucket", VString "logs")]);
                 ("aws", [("s3_bucket", VString "logs")])] = Some cat2' /\
    assoc "s3_bucket" cat2' = Some v.
Proof.
  eapply (proj2 (environment_name_collision
                   (world_of [("conf_aws_s3_bucket", "logs")] []) default_opts
                   [("aws_s3", [("bucket", VNull)]); ("aws", [("s3_bucket", VNull)])] _
                   "aws" "s3" "bucket" "logs" _ _ _ _
                   eq_refl eq_refl eq_refl eq_refl eq_refl eq_refl _)).
  reflexivity.
  Unshelve. discriminate.
Defined.

(** *** [JSON.parse] never returns [undefined] *)

Lemma json_value_unfold f s :
  json_value (S f) s =
  match s with
  | String "n" _ => option_map (pair VNull) (strip_prefix "null" s)
  | String "t" _ => option_map (pair (VBool true)) (strip_prefix "true" s)
  | String "f" _ => option_map (pair (VBool false)) (strip_prefix "false" s)
  | String "034" r =>
      match json_string r with
      | Some (str, r') => Some (VString str, r')
      | None => None
      end
  | String "[" r =>
      match skip_ws r with
      | String "]" r' => Some (VArray [], r')
      | r1 => json_elements f (S (String.length r1)) r1 []
      end
  | String "{" r =>
      match skip_ws r with
      | String "}" r' => Some (VObject [], r')
      | r1 => json_members f (S (String.length r1)) r1 []
      end
  | _ => json_number s
  end.
Proof. reflexivity. Qed.

Lemma json_number_defined s : top_defined (json_number s).
Proof.
  unfold json_number, top_defined.
  destruct (match s with String "-" r0 => (true, r0) | _ => (false, s) end) as [neg digits].
  destruct (scan_decimal digits) as [sc|]; [|discriminate].
  destruct (_ && _); [|discriminate].
  intros v r H. inversion H. discriminate.
Qed.

Lemma json_elements_defined f n : forall t acc, top_defined (json_elements f n t acc).
Proof.
  induction n as [|n IH]; intros t acc v r; simpl; [discriminate|].
  destruct (json_value f t) as [[v0 t1]|]; [|discriminate].
  destruct (skip_ws t1) as [|c t2] eqn:E; [discriminate|].
  destruct c as [[] [] [] [] [] [] [] []]; try discriminate.
  all: first [apply IH | intros H; inversion H; discriminate].
Qed.

Lemma json_members_defined f n : forall t acc, top_defined (json_members f n t acc).
Proof.
  induction n as [|n IH]; intros t acc v r; simpl; [discriminate|].
  destruct t as [|c t0]; [discriminate|].
  destruct c as [[] [] [] [] [] [] [] []]; try discriminate.
  destruct (json_string t0) as [[key t1]|]; [|discriminate].
  destruct (skip_ws t1) as [|c t2]; [discriminate|].
  destruct c as [[] [] [] [] [] [] [] []]; try discriminate.
  destruct (json_value f (skip_ws t2)) as [[v0 t3]|]; [|discriminate].
  destruct (skip_ws t3) as [|c t4]; [discriminate|].
  destruct c as [[] [] [] [] [] [] [] []]; try discriminate.
  all: first [apply IH | intros H; inversion H; discriminate].
Qed.

Lemma json_value_defined fuel s : top_defined (json_value fuel s).
Proof.
  destruct fuel as [|f]; [intros v r; discriminate|].
  rewrite json_value_unfold.
  destruct s as [|c s']; [apply json_number_defined|].
  destruct c as [[] [] [] [] [] [] [] []]; try apply json_number_defined.
  all: try (destruct (skip_ws s') as [|c r1];
            [first [apply json_members_defined | apply json_elements_defined]|];
            destruct c as [[] [] [] [] [] [] [] []];
            first [apply json_members_defined | apply json_elements_defined
                  | intros v r H; inversion H; discriminate]).
  all: intros v r;
    first [ destruct (strip_prefix _ _); simpl; [|discriminate]
          | destruct (json_string s') as [[str r']|]; [|discriminate] ];
    intros H; inversion H; discriminate.
Qed.

Lemma JSON_parse_defined text v : JSON_parse text = Some v -> v <> VUndefined.
Proof.
  unfold JSON_parse.
  destruct (json_value _ _) as [[v0 r]|] eqn:E; [|discriminate].
  destruct (skip_ws r); [|discriminate].
  intros H. inversion H. subst. exact (json_value_defined _ _ _ _ E).
Qed.

Lemma supplied_defined src c k v : supplied src c k = Some v -> v <> VUndefined.
Proof.
  unfold supplied. destruct (assoc c src) as [cat|]; [|discriminate].
  destruct (assoc k cat) as [[]|]; intros H; inversion H; discriminate.
Qed.

Lemma coerce_defined numeric opts raw v :
  coerce numeric opts raw = Some v -> v <> VUndefined.
Proof.
  unfold coerce. destruct (disableEnvarParsing opts).
  - intros H. inversion H. discriminate.
  - destruct (Number _) as [n|]; [|discriminate].
    destruct (numeric n); intros H; inversion H; [discriminate|].
    destruct (JSON_parse raw) as [j|] eqn:E; [|discriminate].
    exact (JSON_parse_defined _ _ E).
Qed.

(** X9.  In the object returned, a key of plain names is [undefined]
    exactly when the schema left it [undefined] and no source supplies
    it: neither the overrides, nor a non-empty environment variable, nor
    the secret configuration.  No source can turn a defined value into
    [undefined]. *)
Theorem undefined_only_when_unsupplied (w : World) (opts : ConfigOpts)
    (schema r : ConfigSchema) (categoryKey valueKey : string) (cat : Category)
    (default : value) :
  assoc categoryKey schema = Some cat ->
  assoc valueKey cat = Some default ->
  plain_name categoryKey = true ->
  plain_name valueKey = true ->
  let unsupplied :=
    default = VUndefined /\
    match overrides opts with
    | Some o => supplied o categoryKey valueKey
    | None => None
    end = None /\
    (env w ("conf_" ++ categoryKey ++ "_" ++ valueKey) = None \/
     env w ("conf_" ++ categoryKey ++ "_" ++ valueKey) = Some EmptyString) /\
    supplied (secret_config w opts) categoryKey valueKey = None in
  (ConfigJs.loadConfig w (Some schema) opts = Returned r ->
   exists cat' v,
     assoc categoryKey r = Some cat' /\ assoc valueKey cat' = Some v /\
     (v = VUndefined <-> unsupplied)) /\
  (Part000.loadConfig w (Some schema) opts = Returned r ->
   exists cat' v,
     assoc categoryKey r = Some cat' /\ assoc valueKey cat' = Some v /\
     (v = VUndefined <-> unsupplied)).
Proof.
  intros Hc Hk Hpc Hpk. cbv zeta.
  assert (H : forall numeric,
             loadConfigWith numeric w (Some schema) opts = Returned r ->
             exists cat' v,
               assoc categoryKey r = Some cat' /\ assoc valueKey cat' = Some v /\
               (v = VUndefined <->
                default = VUndefined /\
                match overrides opts with
                | Some o => supplied o categoryKey valueKey
                | None => None
                end = None /\
                (env w ("conf_" ++ categoryKey ++ "_" ++ valueKey) = None \/
                 env w ("conf_" ++ categoryKey ++ "_" ++ valueKey) = Some EmptyString) /\
                supplied (secret_config w opts) categoryKey valueKey = None)).
  { intros numeric Hr.
    destruct (loadConfigWith_plain_at numeric w opts schema r _ _ _ _ Hr Hc Hk Hpc Hpk)
      as (cat' & v & H1 & H2 & H3).
    exists cat', v. split; [exact H1|]. split; [exact H2|].
    destruct (match overrides opts with Some o => _ | None => None end) as [o|] eqn:Eo.
    - subst v. split.
      + intros ->. exfalso.
        destruct (overrides opts) as [o'|]; [|discriminate].
        exact (supplied_defined _ _ _ _ Eo eq_refl).
      + intros (_ & H & _). discriminate.
    - rewrite truthy_env_spelled in H3.
      destruct (env w ("conf_" ++ categoryKey ++ "_" ++ valueKey)) as [[|x raw]|].
      + subst v. destruct (supplied (secret_config w opts) categoryKey valueKey)
          as [s|] eqn:Es.
        * split.
          -- intros ->. exfalso. exact (supplied_defined _ _ _ _ Es eq_refl).
          -- intros (_ & _ & _ & H). discriminate.
        * split; [intros ->; auto|]. now intros (-> & _).
      + split.
        * intros ->. exfalso. exact (coerce_defined _ _ _ _ H3 eq_refl).
        * intros (_ & _ & [H|H] & _); discriminate.
      + subst v. destruct (supplied (secret_config w opts) categoryKey valueKey)
          as [s|] eqn:Es.
        * split.
          -- intros ->. exfalso. exact (supplied_defined _ _ _ _ Es eq_refl).
          -- intros (_ & _ & _ & H). discriminate.
        * split; [intros ->; auto|]. now intros (-> & _). }
  split; apply H.
Qed.

Lemma undefined_only_when_unsupplied_witness :
  exists cat' v,
    assoc "aws" [("config", [("errorOnUndefined", VBool false)]);
                 ("aws", [("region", VNumber (num 42)); ("retries", VUndefined)])]
    = Some cat' /\
    assoc "retries" cat' = Some v /\
    (v = VUndefined <->
     VUndefined = VUndefined /\ @None value = None /\
     (env sample_world "conf_aws_retries" = None \/
      env sample_world "conf_aws_retries" = Some EmptyString) /\
     supplied (secret_config sample_world default_opts) "aws" "retries" = None).
Proof.
  exact (proj2 (undefined_only_when_unsupplied sample_world default_opts sample_schema _
                  "aws" "retries" _ _ eq_refl eq_refl eq_refl eq_refl) eq_refl).
Defined.

(** *** The script *)

Lemma getCategory_own (config : ConfigSchema) s cat :
  assoc s config = Some cat -> getCategory config s = OwnCategory cat.
Proof. intros H. unfold getCategory. unfold Category in *. now rewrite H. Qed.

Lemma get2_own (config : ConfigSchema) s cat k :
  assoc s config = Some cat -> get2 config s k = Some (get cat k).
Proof. intros H. unfold get2. now rewrite (getCategory_own config s cat H). Qed.

Lemma addVariableDefinition_line config lines s k :
  addVariableDefinition config lines s k
  = match get2 config s k with
    | Some v => Some (lines ++ [export_line s k v])%list
    | None => None
    end.
Proof. reflexivity. Qed.

Lemma through_nil {A : Type} (step : list string -> A -> option (list string)) lines :
  through step [] lines = Some lines.
Proof. reflexivity. Qed.

Lemma through_cons {A : Type} (step : list string -> A -> option (list string))
    x items lines :
  through step (x :: items) lines
  = match step lines x with
    | Some ls => through step items ls
    | None => None
    end.
Proof.
  unfold through. simpl. destruct (step lines x) as [ls|]; [reflexivity|].
  induction items as [|y items IH]; simpl; [reflexivity|exact IH].
Qed.

Lemma through_ext_in {A : Type} (f g : list string -> A -> option (list string)) items :
  (forall x, In x items -> forall ls, f ls x = g ls x) ->
  forall lines, through f items lines = through g items lines.
Proof.
  induction items as [|x items IH]; intros H lines; [reflexivity|].
  rewrite !through_cons, (H x) by now left.
  destruct (g lines x); [|reflexivity]. apply IH. intros y Hy. apply H. now right.
Qed.

Lemma addSection_lines config lines s cat :
  assoc s config = Some cat ->
  addSection config lines s = Some (lines ++ section_lines s cat)%list.
Proof.
  intros H. unfold addSection, section_lines. rewrite (getCategory_own config s cat H).
  generalize (map fst cat) as ks. intros ks. revert lines.
  induction ks as [|k ks IH]; intros lines.
  - rewrite through_nil. simpl. now rewrite app_nil_r.
  - rewrite through_cons, addVariableDefinition_line, (get2_own config s cat k H), IH.
    simpl. now rewrite <- app_assoc.
Qed.

Lemma addPair_result config lines arg :
  addPair config lines arg
  = if fatal_argument config arg then None
    else Some (lines ++ argument_lines config arg)%list.
Proof.
  unfold addPair, fatal_argument, argument_lines, lines_of_section.
  destruct (split "." arg) as [|s [|i [|x rest]]]; try now rewrite app_nil_r.
  - destruct (assoc s config) as [cat|] eqn:E.
    + rewrite (getCategory_own config s cat E). now apply addSection_lines.
    + unfold addSection. destruct (getCategory config s) as [cat|b|] eqn:Eg.
      * unfold getCategory in Eg. unfold Category in *. rewrite E in Eg.
        destruct (from_object_prototype _ s); discriminate.
      * rewrite app_nil_r. now destruct (typeof (VBuiltin b) =? "object").
      * now rewrite app_nil_r.
  - rewrite addVariableDefinition_line. now destruct (get2 config s i).
Qed.

Lemma through_addPair config args : forall lines,
  through (addPair config) args lines
  = if existsb (fatal_argument config) args then None
    else Some (lines ++ flat_map (argument_lines config) args)%list.
Proof.
  induction args as [|arg args IH]; intros lines; simpl.
  - now rewrite app_nil_r.
  - rewrite through_cons, addPair_result.
    destruct (fatal_argument config arg); simpl; [reflexivity|].
    rewrite IH. destruct (existsb _ args); [reflexivity|]. now rewrite <- app_assoc.
Qed.

Lemma through_addSection config sections :
  (forall s, In s sections -> assoc s config <> None) ->
  forall lines,
    through (addSection config) sections lines
    = Some (lines ++ flat_map (lines_of_section config) sections)%list.
Proof.
  induction sections as [|s sections IH]; intros H lines; simpl.
  - now rewrite app_nil_r.
  - rewrite through_cons. unfold lines_of_section at 1.
    assert (Hs : assoc s config <> None) by (apply H; now left).
    destruct (assoc s config) as [cat|] eqn:E; [|congruence].
    rewrite (addSection_lines config lines s cat E), IH.
    + now rewrite <- app_assoc.
    + intros s' Hs'. apply H. now right.
Qed.

Lemma script_lines_result config argv :
  script_lines config argv
  = if (2 <? length argv)%nat
    then if existsb (fatal_argument config) (skipn 2 argv) then None
         else Some (flat_map (argument_lines config) (skipn 2 argv))
    else Some (flat_map (lines_of_section config) (map fst config)).
Proof.
  unfold script_lines. destruct (2 <? length argv)%nat.
  - now rewrite through_addPair.
  - rewrite through_addSection; [reflexivity|].
    intros s Hs. now apply assoc_keys.
Qed.

Lemma concat_terminated lines :
  String.concat newline (lines ++ [EmptyString]) = terminated lines.
Proof.
  induction lines as [|x lines IH]; [reflexivity|].
  simpl. rewrite <- IH. destruct lines; reflexivity.
Qed.

Lemma main_result w argv config :
  Part000.loadConfig w None default_opts = Returned config ->
  main w argv
  = match script_lines config argv with
    | Some lines => Wrote (terminated lines)
    | None => Died TypeError
    end.
Proof.
  intros H. unfold main. rewrite H.
  destruct (script_lines config argv); [|reflexivity]. now rewrite concat_terminated.
Qed.

(** At a section of plain name the read throws exactly when the
    configuration has no such section. *)
Lemma fatal_argument_plain config arg section item :
  split "." arg = [section; item] -> plain_name section = true ->
  fatal_argument config arg = true <-> assoc section config = None.
Proof.
  intros Hs Hp. unfold fatal_argument, get2. rewrite Hs, (getCategory_plain config _ Hp).
  destruct (assoc section config); split; congruence.
Qed.

Lemma fatal_argument_pair config arg :
  fatal_argument config arg = true -> exists section item, split "." arg = [section; item].
Proof.
  unfold fatal_argument.
  destruct (split "." arg) as [|s [|i [|x rest]]]; try discriminate. eauto.
Qed.

(** X10.  Run as a script, the module dies of what [loadConfig] throws
    when it throws.  When it returns, and the arguments of the form
    [section.item] name no section like a member of [Object.prototype],
    the script dies exactly when one of them names a section the
    configuration lacks, and then of a TypeError; so it never dies
    without arguments, of bare section names or of arguments of three
    parts or more. *)
Theorem script_dies_iff (w : World) (argv : list string) :
  (forall e, Part000.loadConfig w None default_opts = Threw e -> main w argv = Died e) /\
  (forall config e,
      Part000.loadConfig w None default_opts = Returned config ->
      (forall arg section item,
          In arg (skipn 2 argv) -> split "." arg = [section; item] ->
          plain_name section = true) ->
      (main w argv = Died e <->
       e = TypeError /\
       exists arg section item,
         In arg (skipn 2 argv) /\ split "." arg = [section; item] /\
         assoc section config = None)).
Proof.
  split.
  - intros e H. unfold main. now rewrite H.
  - intros config e Hload Hplain.
    rewrite (main_result w argv config Hload), script_lines_result.
    destruct (2 <? length argv)%nat eqn:El.
    + destruct (existsb (fatal_argument config) (skipn 2 argv)) eqn:Ex.
      * apply existsb_exists in Ex. destruct Ex as (arg & Hin & Hf).
        destruct (fatal_argument_pair config arg Hf) as (s & i & Hs).
        split.
        -- intros H. inversion H. split; [reflexivity|].
           exists arg, s, i. repeat split; try assumption.
           apply (fatal_argument_plain config arg s i Hs (Hplain arg s i Hin Hs)).
           exact Hf.
        -- intros [-> _]. reflexivity.
      * split; [discriminate|].
        intros (_ & arg & s & i & Hin & Hs & Hnone). exfalso.
        assert (Hf : fatal_argument config arg = true)
          by (apply (fatal_argument_plain config arg s i Hs (Hplain arg s i Hin Hs));
              exact Hnone).
        assert (Hex : existsb (fatal_argument config) (skipn 2 argv) = true)
          by (apply existsb_exists; eauto).
        congruence.
    + split; [discriminate|].
      intros (_ & arg & s & i & Hin & _). exfalso.
      apply Nat.ltb_ge in El. rewrite (skipn_all2 argv El) in Hin. exact Hin.
Qed.

Lemma script_dies_iff_witness :
  main (world_of [] [("/app/.conf.default.js", conf_default)])
       ["node"; "config.js"; "aws.region"]
  = Died TypeError.
Proof.
  apply (proj2 (script_dies_iff (world_of [] [("/app/.conf.default.js", conf_default)])
                  ["node"; "config.js"; "aws.region"]) conf_default TypeError eq_refl).
  - intros arg s i [<-|[]] H. inversion H. reflexivity.
  - split; [reflexivity|].
    exists "aws.region", "aws", "region". repeat split. now left.
Defined.

Lemma assoc_NoDup {A : Type} (l : list (string * A)) k v :
  NoDup (map fst l) -> In (k, v) l -> assoc k l = Some v.
Proof.
  induction l as [|[k' v'] l IH]; simpl; intros Hnd Hin; [contradiction|].
  inversion Hnd as [|? ? Hnotin Hnd']; subst.
  destruct Hin as [Heq|Hin].
  - inversion Heq; subst. now rewrite String.eqb_refl.
  - destruct (k' =? k) eqn:E; [|auto].
    apply String.eqb_eq in E. subst k'. exfalso. apply Hnotin.
    apply in_map_iff. now exists (k, v).
Qed.

Lemma flat_map_ext_on {A B : Type} (f g : A -> list B) l :
  (forall a, In a l -> f a = g a) -> flat_map f l = flat_map g l.
Proof.
  induction l as [|a l IH]; simpl; intros H; [reflexivity|].
  rewrite (H a) by now left. f_equal. apply IH. intros b Hb. apply H. now right.
Qed.

Lemma map_flat_map_lines {A B C : Type} (g : B -> C) (f : A -> list B) l :
  map g (flat_map f l) = flat_map (fun a => map g (f a)) l.
Proof.
  induction l as [|a l IH]; simpl; [reflexivity|]. now rewrite map_app, IH.
Qed.

Lemma flat_map_keys {A B : Type} (f : string -> list B) (l : list (string * A)) :
  flat_map f (map fst l) = flat_map (fun e => f (fst e)) l.
Proof. induction l as [|a l IH]; simpl; [reflexivity|]. now rewrite IH. Qed.

Lemma section_lines_entries section (cat : Category) :
  NoDup (map fst cat) ->
  section_lines section cat
  = map (fun kv => export_line section (fst kv) (snd kv)) cat.
Proof.
  intros Hnd. unfold section_lines. rewrite map_map. apply map_ext_in.
  intros [k v] Hin. simpl. unfold get, get_plain.
  now rewrite (assoc_NoDup cat k v Hnd Hin).
Qed.

(** X11.  Without arguments the script writes one line per key of the
    loaded configuration, category after category in the object's own
    order: [export config_<section>_<item>=] followed by the JSON text of
    the value, or by nothing when the value is [undefined]; every line
    ends with a newline. *)
Theorem script_dump_lists_every_key (w : World) (argv : list string)
    (config : ConfigSchema) :
  Part000.loadConfig w None default_opts = Returned config ->
  (length argv <= 2)%nat ->
  NoDup (map fst config) ->
  (forall section cat, In (section, cat) config -> NoDup (map fst cat)) ->
  main w argv
  = Wrote (terminated
             (map (fun e => export_line (fst (fst e)) (snd (fst e)) (snd e))
                  (entries config))).
Proof.
  intros Hload Hlen Hnd Hcats.
  rewrite (main_result w argv config Hload), script_lines_result.
  replace (2 <? length argv)%nat with false
    by (symmetry; apply Nat.ltb_ge; exact Hlen).
  do 2 f_equal. unfold entries.
  rewrite flat_map_keys, map_flat_map_lines. apply flat_map_ext_on.
  intros [s cat] Hin. simpl. unfold lines_of_section.
  rewrite (assoc_NoDup config s cat Hnd Hin), map_map.
  now apply section_lines_entries, (Hcats s).
Qed.

Lemma script_dump_lists_every_key_witness :
  main (world_of [("conf_aws_retries", "3")] [("/app/.conf.default.js", sample_schema)])
       ["node"; "config.js"]
  = Wrote ("export config_config_errorOnUndefined=false" ++ newline
           ++ "export config_aws_region=" ++ quote "us-east-1" ++ newline
           ++ "export config_aws_retries=3" ++ newline).
Proof.
  rewrite (script_dump_lists_every_key _ _
             [("config", [("errorOnUndefined", VBool false)]);
              ("aws", [("region", VString "us-east-1"); ("retries", VNumber (num 3))])]).
  - reflexivity.
  - reflexivity.
  - simpl. lia.
  - repeat constructor; simpl; intuition discriminate.
  - intros s cat [H|[H|[]]]; inversion H; subst;
      repeat constructor; simpl; intuition discriminate.
Defined.

(** X12.  A bare section name is shorthand for the list of its items:
    [node config.js s] writes what [node config.js s.k1 ... s.kn] writes,
    [k1 ... kn] being the keys of [s], provided there is at least one key
    and neither the section name nor a key contains a dot. *)
Theorem section_argument_lists_its_items (w : World) (node script section : string)
    (config : ConfigSchema) (cat : Category) :
  Part000.loadConfig w None default_opts = Returned config ->
  assoc section config = Some cat ->
  cat <> [] ->
  has_char "." section = false ->
  (forall item, In item (map fst cat) -> has_char "." item = false) ->
  main w [node; script; section]
  = main w (node :: script :: map (fun item => section ++ "." ++ item) (map fst cat)).
Proof.
  intros Hload Hcat Hne Hs Hitems.
  rewrite !(main_result w _ config Hload), !script_lines_result.
  assert (Hlen : (2 <? length (node :: script
                     :: map (fun item => section ++ "." ++ item) (map fst cat)))%nat = true).
  { apply Nat.ltb_lt. simpl. rewrite !length_map.
    destruct cat; [contradiction|simpl; lia]. }
  rewrite Hlen. clear Hlen.
  replace (2 <? length [node; script; section])%nat with true by reflexivity.
  cbn [skipn].
  assert (Hfatal : forall items,
             (forall item, In item items -> has_char "." item = false) ->
             existsb (fatal_argument config)
               (map (fun item => section ++ "." ++ item) items) = false /\
             flat_map (argument_lines config)
               (map (fun item => section ++ "." ++ item) items)
             = map (fun item => export_line section item (get cat item)) items).
  { induction items as [|i items IH]; intros Hi; [split; reflexivity|].
    destruct IH as [IH1 IH2]; [intros j Hj; apply Hi; now right|].
    cbn [map existsb flat_map]. rewrite IH1, IH2.
    unfold fatal_argument, argument_lines.
    rewrite (split_pair section i Hs (Hi i (or_introl eq_refl))),
      (get2_own config section cat i Hcat).
    split; reflexivity. }
  destruct (Hfatal (map fst cat) Hitems) as [H1 H2]. rewrite H1, H2.
  cbn [existsb flat_map].
  unfold fatal_argument, argument_lines, lines_of_section.
  rewrite (split_name section Hs), Hcat.
  cbn [orb]. now rewrite app_nil_r.
Qed.

Lemma section_argument_lists_its_items_witness :
  main (world_of [] [("/app/.conf.default.js", sample_schema)])
       ["node"; "config.js"; "aws"]
  = main (world_of [] [("/app/.conf.default.js", sample_schema)])
         ["node"; "config.js"; "aws.region"; "aws.retries"].
Proof.
  apply (section_argument_lists_its_items _ "node" "config.js" "aws" sample_schema
           [("region", VString "us-east-1"); ("retries", VUndefined)]).
  - reflexivity.
  - reflexivity.
  - discriminate.
  - reflexivity.
  - intros item [<-|[<-|[]]]; reflexivity.
Defined.

(** X13.  Without arguments the script writes what it writes when given
    every section name in order, provided the configuration has a
    section and no section name contains a dot. *)
Theorem no_argument_means_every_section (w : World) (argv : list string)
    (node script : string) (config : ConfigSchema) :
  Part000.loadConfig w None default_opts = Returned config ->
  (length argv <= 2)%nat ->
  config <> [] ->
  (forall section, In section (map fst config) -> has_char "." section = false) ->
  main w argv = main w (node :: script :: map fst config).
Proof.
  intros Hload Hlen Hne Hdots.
  rewrite !(main_result w _ config Hload). unfold script_lines.
  replace (2 <? length argv)%nat with false
    by (symmetry; apply Nat.ltb_ge; exact Hlen).
  replace (2 <? length (node :: script :: map fst config))%nat with true.
  2:{ symmetry. apply Nat.ltb_lt. simpl. rewrite length_map.
      destruct config; [contradiction|simpl; lia]. }
  cbn [skipn]. f_equal.
  rewrite (through_ext_in (addSection config) (addPair config)); [reflexivity|].
  intros s Hs ls. unfold addPair. rewrite (split_name s (Hdots s Hs)).
  destruct (assoc_of_key _ _ Hs) as [cat Hcat].
  now rewrite (getCategory_own config s cat Hcat).
Qed.

Lemma no_argument_means_every_section_witness :
  main (world_of [] [("/app/.conf.default.js", sample_schema)]) ["node"; "config.js"]
  = main (world_of [] [("/app/.conf.default.js", sample_schema)])
         ["node"; "config.js"; "config"; "aws"].
Proof.
  apply (no_argument_means_every_section _ _ "node" "config.js" sample_schema).
  - reflexivity.
  - simpl. lia.
  - discriminate.
  - intros s [<-|[<-|[]]]; reflexivity.
Defined.

(** X14.  An argument with two dots or more, and a dotless argument that
    names no section, are passed over in silence: among other arguments
    they change nothing, and alone they make the script write the empty
    text, not the full dump it writes without arguments. *)
Theorem unusable_arguments_are_skipped (w : World) (node script arg : string)
    (before after : list string) (config : ConfigSchema) :
  Part000.loadConfig w None default_opts = Returned config ->
  ((3 <= length (split "." arg))%nat \/
   (exists section, split "." arg = [section] /\ assoc section config = None)) ->
  main w [node; script; arg] = Wrote EmptyString /\
  ((before ++ after)%list <> [] ->
   main w (node :: script :: (before ++ arg :: after)%list)
   = main w (node :: script :: (before ++ after)%list)).
Proof.
  intros Hload Harg.
  assert (Hf : fatal_argument config arg = false).
  { unfold fatal_argument. destruct Harg as [H|(s & -> & _)]; [|reflexivity].
    destruct (split "." arg) as [|s [|i [|x rest]]]; simpl in H; try lia; reflexivity. }
  assert (Hl : argument_lines config arg = []).
  { unfold argument_lines, lines_of_section.
    destruct Harg as [H|(s & -> & ->)]; [|reflexivity].
    destruct (split "." arg) as [|s [|i [|x rest]]]; simpl in H; try lia; reflexivity. }
  split.
  - rewrite (main_result w _ config Hload), script_lines_result.
    cbn [length Nat.ltb Nat.leb skipn existsb flat_map]. now rewrite Hf, Hl.
  - intros Hne. rewrite !(main_result w _ config Hload), !script_lines_result.
    replace (2 <? length (node :: script :: (before ++ arg :: after)%list))%nat with true
      by (symmetry; apply Nat.ltb_lt; simpl; rewrite length_app; simpl; lia).
    replace (2 <? length (node :: script :: (before ++ after)%list))%nat with true.
    2:{ symmetry. apply Nat.ltb_lt. simpl.
        destruct (before ++ after)%list; [contradiction|simpl; lia]. }
    cbn [skipn]. rewrite !existsb_app, !flat_map_app.
    cbn [existsb flat_map]. now rewrite Hf, Hl.
Qed.

Lemma unusable_arguments_are_skipped_witness :
  main (world_of [] [("/app/.conf.default.js", sample_schema)])
       ["node"; "config.js"; "aws.region.name"]
  = Wrote EmptyString.
Proof.
  apply (proj1 (unusable_arguments_are_skipped
                  (world_of [] [("/app/.conf.default.js", sample_schema)])
                  "node" "config.js" "aws.region.name"
                  [] [] sample_schema eq_refl (or_introl (le_n 3)))).
Defined.

Lemma exported_name_not_read section item categoryKey valueKey :
  "config_" ++ section ++ "_" ++ item <> varName categoryKey valueKey.
Proof. unfold varName. simpl. intros H. inversion H. Qed.

Lemma export_line_unread section item v : exports_unread_name (export_line section item v).
Proof.
  exists section, item,
    (match v with
     | VUndefined => EmptyString
     | _ => match JSON_stringify v with Some text => text | None => "undefined" end
     end).
  split; [reflexivity|]. intros c k. apply exported_name_not_read.
Qed.

Lemma section_lines_unread section cat : Forall exports_unread_name (section_lines section cat).
Proof.
  unfold section_lines. apply Forall_forall. intros line Hin.
  apply in_map_iff in Hin. destruct Hin as (k & <- & _). apply export_line_unread.
Qed.

Lemma argument_lines_unread config arg : Forall exports_unread_name (argument_lines config arg).
Proof.
  unfold argument_lines, lines_of_section.
  destruct (split "." arg) as [|s [|i [|x rest]]]; try constructor.
  - destruct (assoc s config) as [cat|]; [apply section_lines_unread|constructor].
  - destruct (get2 config s i) as [v|]; constructor;
      [apply export_line_unread|constructor].
Qed.

Lemma Forall_flat_map_each {A B : Type} (P : B -> Prop) (f : A -> list B) l :
  (forall a, Forall P (f a)) -> Forall P (flat_map f l).
Proof.
  intros H. induction l as [|a l IH]; simpl; [constructor|].
  apply Forall_app. split; [apply H|exact IH].
Qed.

(** X15.  Whatever the script writes is a sequence of newline-terminated
    lines of the form [export config_<section>_<item>=<text>], and no
    variable so named is one [loadConfig] reads: it reads names that
    begin with [conf_]. *)
Theorem script_exports_names_loadConfig_does_not_read (w : World) (argv : list string)
    (out : string) :
  main w argv = Wrote out ->
  exists lines, out = terminated lines /\ Forall exports_unread_name lines.
Proof.
  intros H. unfold main in H.
  destruct (Part000.loadConfig w None default_opts) as [config|e]; [|discriminate].
  rewrite script_lines_result in H.
  destruct (2 <? length argv)%nat.
  - destruct (existsb _ _); [discriminate|].
    inversion H. rewrite concat_terminated. eexists. split; [reflexivity|].
    apply Forall_flat_map_each. apply argument_lines_unread.
  - inversion H. rewrite concat_terminated. eexists. split; [reflexivity|].
    apply Forall_flat_map_each. intros s. unfold lines_of_section.
    destruct (assoc s config); [apply section_lines_unread|constructor].
Qed.

Lemma script_exports_names_loadConfig_does_not_read_witness :
  exists lines,
    "export config_config_errorOnUndefined=false" ++ newline = terminated lines /\
    Forall exports_unread_name lines.
Proof.
  apply (script_exports_names_loadConfig_does_not_read
           (world_of [] [("/app/.conf.default.js", conf_default)]) ["node"; "config.js"]).
  reflexivity.
Defined.

(** *** The usage script *)

Lemma loadConfigWith_local numeric w w' opts c :
  (forall ck k, env w' (varName ck k) = env w (varName ck k)) ->
  secret_config w' opts = secret_config w opts ->
  loadConfigWith numeric w' (Some c) opts = loadConfigWith numeric w (Some c) opts.
Proof.
  intros Henv Hsec. unfold loadConfigWith.
  change (match require w' (path_join match workingDir opts with
                                      | Some d => d
                                      | None => cwd w'
                                      end ".conf.js") with
          | Some s => s
          | None => []
          end) with (secret_config w' opts).
  change (match require w (path_join match workingDir opts with
                                     | Some d => d
                                     | None => cwd w
                                     end ".conf.js") with
          | Some s => s
          | None => []
          end) with (secret_config w opts).
  now rewrite Hsec, (resolveAll_env_local numeric w w').
Qed.

Lemma secret_config_remember w opts c :
  secret_config (remember w (default_path w opts) c) opts = secret_config w opts.
Proof.
  unfold secret_config. simpl.
  change (secret_path (remember w (default_path w opts) c) opts) with (secret_path w opts).
  now rewrite secret_path_not_default.
Qed.

(** In a process that differs from [w] only in holding the resolved
    object at the default path, a call with no argument and a call on
    that object both return it. *)
Lemma loadConfig_after_first numeric w d r :
  require w (default_path w default_opts) = Some d ->
  loadConfigWith numeric w None default_opts = Returned r ->
  let w' := remember w (default_path w default_opts) r in
  require w' (default_path w default_opts) = Some r /\
  loadConfigWith numeric w' (Some r) default_opts = Returned r /\
  loadConfigWith numeric w' None default_opts = Returned r.
Proof.
  intros Hd Hr w'.
  rewrite (loadConfigWith_default numeric w default_opts d Hd) in Hr.
  apply loadConfigWith_again in Hr.
  assert (Hreq : require w' (default_path w default_opts) = Some r)
    by (unfold w'; simpl; now rewrite String.eqb_refl).
  assert (Hsome : loadConfigWith numeric w' (Some r) default_opts = Returned r).
  { rewrite <- Hr. apply loadConfigWith_local; [reflexivity|].
    apply secret_config_remember. }
  split; [exact Hreq|]. split; [exact Hsome|].
  now rewrite (loadConfigWith_default numeric w' default_opts r Hreq).
Qed.

Lemma require_remember w p c : require (remember w p c) p = Some c.
Proof. simpl. now rewrite String.eqb_refl. Qed.

Lemma remember_again w p c : forall q,
  require (remember (remember w p c) p c) q = require (remember w p c) q.
Proof. intros q. simpl. now destruct (q =? p). Qed.

(** X16.  Run from its own directory, with a default schema there that
    the first call resolves without throwing, the usage script logs the
    same object four times: the schema resolved by the first call, which
    the three later calls find already resolved in the module [require]
    kept and leave as it is. *)
Theorem usage_script_logs_one_object (w : World) (d r : ConfigSchema) :
  require w (default_path w default_opts) = Some d ->
  ConfigJs.loadConfig w None default_opts = Returned r ->
  test_commonjs (cwd w) w = ([r; r; r; r], None).
Proof.
  intros Hd Hr.
  destruct (loadConfig_after_first ConfigJs.numeric w d r Hd Hr) as (Hreq & Hsome & Hnone).
  set (p := default_path w default_opts) in *.
  set (w1 := remember w p r) in *.
  assert (Hsame : forall config,
             ConfigJs.loadConfig (remember w1 p r) config default_opts
             = ConfigJs.loadConfig w1 config default_opts).
  { intros config.
    apply (environment_read_by_name_only_helper w1 (remember w1 p r));
      [reflexivity|apply remember_again|reflexivity]. }
  unfold test_commonjs.
  change (path_join (cwd w) ".conf.default.js") with p.
  change (default_path w default_opts) with p.
  rewrite Hr.
  fold w1. rewrite Hreq.
  unfold ConfigJs.loadConfig at 1. rewrite Hsome.
  fold w1. rewrite require_remember.
  rewrite Hsame. unfold ConfigJs.loadConfig at 1. rewrite Hsome.
  assert (Hsame3 : ConfigJs.loadConfig (remember (remember w1 p r) p r) None default_opts
                   = ConfigJs.loadConfig w1 None default_opts).
  { apply (environment_read_by_name_only_helper w1 (remember (remember w1 p r) p r));
      [reflexivity| |reflexivity].
    intros q. simpl. now destruct (q =? p). }
  rewrite Hsame3. unfold ConfigJs.loadConfig. now rewrite Hnone.
Qed.

Lemma usage_script_logs_one_object_witness :
  test_commonjs "/app" (world_of [] [("/app/.conf.default.js", conf_default)])
  = ([conf_default; conf_default; conf_default; conf_default], None).
Proof.
  apply (usage_script_logs_one_object
           (world_of [] [("/app/.conf.default.js", conf_default)]) conf_default conf_default);
    reflexivity.
Defined.

(** X17.  An environment variable set to the empty string counts as not
    set: the outcome is the one of the same process with every empty
    variable removed, so the key falls through to the secret
    configuration or keeps its default. *)
Theorem empty_environment_value_is_unset (w : World) (config : option ConfigSchema)
    (opts : ConfigOpts) :
  ConfigJs.loadConfig (without_empty w) config opts = ConfigJs.loadConfig w config opts /\
  Part000.loadConfig (without_empty w) config opts = Part000.loadConfig w config opts.
Proof.
  assert (H : forall numeric,
             loadConfigWith numeric (without_empty w) config opts
             = loadConfigWith numeric w config opts).
  { intros numeric. unfold loadConfigWith.
    change (cwd (without_empty w)) with (cwd w).
    change (require (without_empty w)) with (require w).
    destruct (match config with Some c => Some c | None => _ end); [|reflexivity].
    set (s := match require w _ with Some s => s | None => [] end).
    rewrite (resolveAll_pointwise numeric numeric (without_empty w) w opts opts s s);
      [reflexivity|].
    intros ck cat k. unfold resolveKey, truthy_env, without_empty. simpl.
    destruct (env w (varName ck k)) as [[|x raw]|]; reflexivity. }
  split; apply H.
Qed.

(** *** When [loadConfig] throws and when it returns *)

Lemma loadConfigWith_throws_alike numeric numeric' w config opts e :
  loadConfigWith numeric w config opts = Threw e ->
  loadConfigWith numeric' w config opts = Threw e.
Proof.
  assert (H : forall c,
             loadConfigWith numeric w (Some c) opts = Threw e ->
             loadConfigWith numeric' w (Some c) opts = Threw e).
  { intros c. rewrite !loadConfigWith_supplied,
      (throwing_numeric numeric numeric' w opts (secret_config w opts) (shape c)).
    now destruct (throwing _ _ _ _ _). }
  destruct config as [c|]; [apply H|].
  destruct (require w (default_path w opts)) as [d|] eqn:E.
  - rewrite !(loadConfigWith_default _ w opts d E). apply H.
  - now rewrite !(loadConfigWith_missing _ w opts E).
Qed.

(** X18.  The two copies of [loadConfig] throw in the same cases, and
    the same exception: they differ only in the values they return. *)
Theorem copies_throw_alike (w : World) (config : option ConfigSchema) (opts : ConfigOpts)
    (e : error) :
  ConfigJs.loadConfig w config opts = Threw e <->
  Part000.loadConfig w config opts = Threw e.
Proof. split; apply loadConfigWith_throws_alike. Qed.

Lemma copies_throw_alike_witness :
  Part000.loadConfig (world_of [("conf_app_port", toString_object_text)] [])
    (Some [("app", [("port", VNull)])]) default_opts
  = Threw TypeError.
Proof.
  apply (proj1 (copies_throw_alike
                  (world_of [("conf_app_port", toString_object_text)] [])
                  (Some [("app", [("port", VNull)])]) default_opts TypeError)).
  reflexivity.
Defined.

Lemma throwing_at numeric w opts secretConfig (config : ConfigSchema) c cat k :
  assoc c config = Some cat -> In k (map fst cat) ->
  throws numeric w opts secretConfig c k = true ->
  throwing numeric w opts secretConfig (shape config) = true.
Proof.
  intros Hc Hk Hb.
  destruct (throwing numeric w opts secretConfig (shape config)) eqn:E; [reflexivity|].
  rewrite (throwing_false numeric w opts secretConfig config c cat k E Hc Hk) in Hb.
  discriminate.
Qed.

(** X19.  [loadConfig] returns when it is given a schema whose category
    names and keys are no member names of [Object.prototype] and the
    environment strings it reads for them have a numeric form, or are
    not parsed. *)
Theorem loadConfig_returns (w : World) (opts : ConfigOpts) (schema : ConfigSchema) :
  (forall categoryKey, In categoryKey (map fst schema) -> plain_name categoryKey = true) ->
  (forall categoryKey cat valueKey,
      assoc categoryKey schema = Some cat -> In valueKey (map fst cat) ->
      plain_name valueKey = true) ->
  (forall categoryKey cat valueKey raw,
      assoc categoryKey schema = Some cat -> In valueKey (map fst cat) ->
      env w ("conf_" ++ categoryKey ++ "_" ++ valueKey) = Some raw ->
      disableEnvarParsing opts = true \/
      Number match JSON_parse raw with
             | Some j => j
             | None => VString raw
             end <> None) ->
  (exists r, ConfigJs.loadConfig w (Some schema) opts = Returned r) /\
  (exists r, Part000.loadConfig w (Some schema) opts = Returned r).
Proof.
  intros Hcats Hkeys Henv.
  assert (H : forall numeric,
             exists r, loadConfigWith numeric w (Some schema) opts = Returned r).
  { intros numeric. rewrite loadConfigWith_supplied.
    destruct (throwing numeric w opts (secret_config w opts) (shape schema)) eqn:E;
      [|eauto].
    exfalso. apply throwing_true in E. destruct E as (c & cat & k & Hc & Hk & Hb).
    unfold throws in Hb.
    rewrite (resolution_plain numeric w opts _ c k) in Hb.
    2:{ apply Hcats. apply assoc_keys. unfold Category in *. congruence. }
    2:{ exact (Hkeys c cat k Hc Hk). }
    destruct (match overrides opts with Some o => _ | None => None end); [discriminate|].
    rewrite truthy_env_spelled in Hb.
    destruct (env w ("conf_" ++ c ++ "_" ++ k)) as [[|x raw]|] eqn:Ee; try discriminate.
    destruct (Henv c cat k _ Hc Hk Ee) as [Hd|Hn]; unfold coerce in Hb.
    - rewrite Hd in Hb. discriminate.
    - destruct (disableEnvarParsing opts); [discriminate|].
      destruct (Number _); [discriminate|]. now apply Hn. }
  split; apply H.
Qed.

Lemma loadConfig_returns_witness :
  exists r, ConfigJs.loadConfig sample_world (Some sample_schema) sample_opts = Returned r.
Proof.
  apply (loadConfig_returns sample_world sample_opts sample_schema).
  - intros c [<-|[<-|[]]]; reflexivity.
  - intros c cat k Hc Hk. unfold sample_schema in Hc. cbn [assoc] in Hc.
    destruct (String.eqb "config" c).
    + injection Hc as <-. destruct Hk as [<-|[]]. reflexivity.
    + destruct (String.eqb "aws" c); [|discriminate].
      injection Hc as <-. destruct Hk as [<-|[<-|[]]]; reflexivity.
  - intros c cat k raw Hc Hk He. right. unfold sample_schema in Hc. cbn [assoc] in Hc.
    destruct (String.eqb "config" c) eqn:E1.
    + apply String.eqb_eq in E1. subst c. injection Hc as <-.
      destruct Hk as [<-|[]]. discriminate.
    + destruct (String.eqb "aws" c) eqn:E2; [|discriminate].
      apply String.eqb_eq in E2. subst c. injection Hc as <-.
      destruct Hk as [<-|[<-|[]]]; [|discriminate].
      vm_compute in He. injection He as <-. vm_compute. discriminate.
Defined.




(** X21.  With parsing on and no overrides, an environment string that
    is the JSON text of an object with a [toString] member makes both
    copies throw a TypeError: [Number] is called outside the [try] that
    guards [JSON.parse]. *)
Theorem unconvertible_environment_value_throws (w : World) (opts : ConfigOpts)
    (schema : ConfigSchema) (categoryKey valueKey raw : string) (cat : Category)
    (default member : value) (props : list (string * value)) :
  assoc categoryKey schema = Some cat ->
  assoc valueKey cat = Some default ->
  overrides opts = None ->
  disableEnvarParsing opts = false ->
  env w ("conf_" ++ categoryKey ++ "_" ++ valueKey) = Some raw ->
  JSON_parse raw = Some (VObject props) ->
  assoc "toString" props = Some member ->
  ConfigJs.loadConfig w (Some schema) opts = Threw TypeError /\
  Part000.loadConfig w (Some schema) opts = Threw TypeError.
Proof.
  intros Hc Hk Hov Hdis Henv Hparse Hmember.
  assert (Hraw : raw <> EmptyString) by (intros ->; discriminate).
  assert (H : forall numeric,
             loadConfigWith numeric w (Some schema) opts = Threw TypeError).
  { intros numeric. rewrite loadConfigWith_supplied.
    rewrite (throwing_at numeric w opts _ schema categoryKey cat valueKey Hc);
      [reflexivity| |].
    - apply assoc_keys. congruence.
    - unfold throws, resolution.
      rewrite Hov, (truthy_env_set w _ _ raw Henv Hraw).
      unfold coerce, Number. rewrite Hdis, Hparse. simpl. now rewrite Hmember. }
  split; apply H.
Qed.

Lemma unconvertible_environment_value_throws_witness :
  ConfigJs.loadConfig (world_of [("conf_app_port", toString_object_text)] [])
    (Some [("app", [("port", VNull)])]) default_opts
  = Threw TypeError.
Proof.
  exact (proj1 (unconvertible_environment_value_throws
                  (world_of [("conf_app_port", toString_object_text)] [])
                  default_opts [("app", [("port", VNull)])] "app" "port"
                  toString_object_text _ _ (VNumber (num 1))
                  [("toString", VNumber (num 1))]
                  eq_refl eq_refl eq_refl eq_refl eq_refl eq_refl eq_refl)).
Defined.
